(** * NBCG: the annotation-driven clipping pipeline of [main.py]

    A shallow embedding of the parts of [main.py] that carry the
    annotation interval model and the clip extraction engine:

    - the frame computation [int(position / 1000.0 * self.fps)] of
      [VideoAnnotationDialog], in IEEE binary64 arithmetic;
    - the annotation dictionary and its two mutators [mark_enter] and
      [mark_exit];
    - [video_to_avi], the normalisation step;
    - [MainWindow.clip_by_annotations]: interval collection, sorting,
      overlap scan and frame-by-frame extraction;

    and of the conversions around them:

    - the table of output formats, [determine_conversion_type] and the
      dispatch of [ConversionThread.run];
    - the output folder option of the window;
    - [ConversionThread.seq_to_mp4], the frame-by-frame converter;
    - the batch: [start_conversion], [process_next_file] and
      [on_conversion_finished].

    Python [int] is [Z], [str] is [string], [float] is a binary64
    [spec_float]; a Python exception is [None] in an [option] result. *)

From Stdlib Require Import String Ascii.
From Stdlib Require Import ZArith List Bool Lia.
From Stdlib Require Import QArith Qround.
From Stdlib Require Import Permutation Sorted DecimalString.
From Stdlib Require Import SpecFloat.
From Equations Require Import Equations.
Import ListNotations.

Local Open Scope Z_scope.

(* ===================================================================== *)
(** * Part I: the program                                                 *)
(* ===================================================================== *)

(** ** Python floats

    CPython's [float] is IEEE 754 binary64 with round-to-nearest-even;
    [SpecFloat] gives exactly these operations at precision 53. *)

Module Float64.

Definition prec : Z := 53.
Definition emax : Z := 1024.

Definition float : Type := spec_float.

(** Conversion of an [int] operand (exact below 2^53). *)
Definition of_int (n : Z) : float := binary_normalize prec emax n 0 false.

Definition div (x y : float) : float := SFdiv prec emax x y.
Definition mul (x y : float) : float := SFmul prec emax x y.
Definition leb (x y : float) : bool := SFleb x y.

(** [int(x)]: truncation toward zero; raises on infinities and NaN. *)
Definition to_int (x : float) : option Z :=
  match x with
  | S754_zero _ => Some 0
  | S754_finite s m e =>
      let a := if 0 <=? e then Z.pos m * 2 ^ e else Z.pos m / 2 ^ (- e) in
      Some (if s then - a else a)
  | S754_infinity _ => None
  | S754_nan => None
  end.

Definition is_finite (x : float) : bool :=
  match x with
  | S754_zero _ | S754_finite _ _ _ => true
  | _ => false
  end.

(** The number that a finite [x] stands for. *)
Definition to_Q (x : float) : Q :=
  match x with
  | S754_finite s m e =>
      (inject_Z (if s then Z.neg m else Z.pos m) * Qpower 2 e)%Q
  | _ => 0%Q
  end.

End Float64.

(** [if fps <= 0: fps = 25] (lines 247-248 and 759-760). *)
Definition default_fps (fps : Float64.float) : Float64.float :=
  if Float64.leb fps (Float64.of_int 0) then Float64.of_int 25 else fps.

(** ** Frame of a player position

    [frame = int(position / 1000.0 * self.fps)] (lines 337, 400, 415). *)
Definition position_frame (position : Z) (fps : Float64.float) : option Z :=
  Float64.to_int
    (Float64.mul (Float64.div (Float64.of_int position) (Float64.of_int 1000)) fps).

(** [frame if frame > 0 else 1] (lines 339, 402, 416). *)
Definition from_one (frame : Z) : Z := if 0 <? frame then frame else 1.

(** The frame number shown and marked for a position in milliseconds. *)
Definition ms_to_frame (position : Z) (fps : Float64.float) : option Z :=
  option_map from_one (position_frame position fps).

(** [initial_position = int(1000 / self.fps)] (line 259): the position,
    in milliseconds, at which the dialog places frame 1. *)
Definition initial_position (fps : Float64.float) : option Z :=
  Float64.to_int (Float64.div (Float64.of_int 1000) fps).

(** ** The way back, as the specification words it

    Python's [round]: to the nearest integer, ties to the even one. *)
Definition round_half_even (x : Q) : Z :=
  let f := Qfloor x in
  match (x - inject_Z f ?= 1 # 2)%Q with
  | Lt => f
  | Gt => f + 1
  | Eq => if Z.even f then f else f + 1
  end.

(** Modelled from the spec: [frame_to_ms] is no function of [main.py]; the
    specification defines it as [ms = round((frame - 1) * 1000 / fps)]. *)
Definition frame_to_ms_spec (frame : Z) (fps : Q) : Z :=
  round_half_even (inject_Z ((frame - 1) * 1000) / fps)%Q.






(** ** The annotation dictionary

    [self.annotations = {}  # { intruderName: {"enter": frame, "exit": frame} }]

    A Python [dict] keeps its keys in insertion order, and the order is
    observable (the first loop of [clip_by_annotations] and the stable sort
    depend on it), so the outer dictionary is an association list.  The inner
    dictionary only ever holds the keys ["enter"] and ["exit"]. *)

Record marks : Type := { enter : option Z; exit : option Z }.

Definition no_marks : marks := {| enter := None; exit := None |}.

Definition annotations : Type := list (string * marks).

(** [d[k]], [None] when [k not in d]. *)
Fixpoint dict_get (d : annotations) (k : string) : option marks :=
  match d with
  | [] => None
  | (k', v) :: d' => if String.eqb k' k then Some v else dict_get d' k
  end.

(** [k in d] *)
Definition dict_mem (d : annotations) (k : string) : bool :=
  match dict_get d k with Some _ => true | None => false end.

(** [d[k] = v]: an existing key keeps its place, a new key goes last. *)
Fixpoint dict_set (d : annotations) (k : string) (v : marks) : annotations :=
  match d with
  | [] => [(k, v)]
  | (k', v') :: d' =>
      if String.eqb k' k then (k', v) :: d' else (k', v') :: dict_set d' k v
  end.

(** ["enter" in d[k]] and ["exit" in d[k]], guarded by [k in d]. *)
Definition has_enter (d : annotations) (k : string) : bool :=
  match dict_get d k with
  | Some {| enter := Some _ |} => true
  | _ => false
  end.

Definition has_exit (d : annotations) (k : string) : bool :=
  match dict_get d k with
  | Some {| exit := Some _ |} => true
  | _ => false
  end.

(** [d[k]["enter"] = frame] and [d[k]["exit"] = frame], for [k in d]. *)
Definition set_enter (d : annotations) (k : string) (frame : Z) : annotations :=
  match dict_get d k with
  | Some m => dict_set d k {| enter := Some frame; exit := exit m |}
  | None => d
  end.

Definition set_exit (d : annotations) (k : string) (frame : Z) : annotations :=
  match dict_get d k with
  | Some m => dict_set d k {| enter := enter m; exit := Some frame |}
  | None => d
  end.

(** [f"{frame}"] *)
Definition str_of_int (n : Z) : string := NilZero.string_of_int (Z.to_int n).

(** What the dialog shows through [QMessageBox]. *)
Inductive message_box : Type :=
| Warning (title text : string)
| Information (title text : string).

(** Truth value of [ok and intruder_name]. *)
Definition accepted (intruder_name : string) (ok : bool) : bool :=
  ok && negb (String.eqb intruder_name EmptyString).

(** [VideoAnnotationDialog.mark_enter] (lines 398-411).  [current_position]
    is [self.mediaPlayer.position()], [answer] what [QInputDialog.getText]
    returns. *)
Definition mark_enter (anns : annotations) (fps : Float64.float) (current_position : Z)
    (answer : string * bool) : option (annotations * option message_box) :=
  match position_frame current_position fps with
  | None => None
  | Some frame =>
      let frame := from_one frame in
      let '(intruder_name, ok) := answer in
      if accepted intruder_name ok then
        if dict_mem anns intruder_name && has_enter anns intruder_name then
          Some (anns,
                Some (Warning "Warning"
                        ("Enter already marked for " ++ intruder_name ++ ".")))
        else
          let anns :=
            if negb (dict_mem anns intruder_name)
            then dict_set anns intruder_name no_marks else anns in
          let anns := set_enter anns intruder_name frame in
          Some (anns,
                Some (Information "Annotation"
                        ("Marked enter for " ++ intruder_name ++ " at frame "
                           ++ str_of_int frame ++ ".")))
      else Some (anns, None)
  end.

(** [available = [name for name, data in self.annotations.items()
                  if "enter" in data and "exit" not in data]] *)
Definition available (anns : annotations) : list string :=
  map fst
    (filter (fun '(_, data) =>
               match enter data, exit data with
               | Some _, None => true
               | _, _ => false
               end) anns).

(** [VideoAnnotationDialog.mark_exit] (lines 413-433).  When some intruder
    is still open the operator picks one of [available] in a drop-down that
    is not editable ([picked] is the index chosen in [QInputDialog.getItem]);
    otherwise a name is typed ([typed] is what [QInputDialog.getText]
    returns).  [exit_answer] is the [intruder_name, ok] of lines 419-425. *)
Definition exit_answer (anns : annotations) (picked : nat * bool)
    (typed : string * bool) : string * bool :=
  match available anns with
  | [] => typed
  | (first :: _) as names => (nth (fst picked) names first, snd picked)
  end.

Definition mark_exit (anns : annotations) (fps : Float64.float) (current_position : Z)
    (picked : nat * bool) (typed : string * bool)
  : option (annotations * option message_box) :=
  match position_frame current_position fps with
  | None => None
  | Some frame =>
      let frame := from_one frame in
      let '(intruder_name, ok) := exit_answer anns picked typed in
      if accepted intruder_name ok then
        if dict_mem anns intruder_name && has_exit anns intruder_name then
          Some (anns,
                Some (Warning "Warning"
                        ("Exit already marked for " ++ intruder_name ++ ".")))
        else
          let anns :=
            if negb (dict_mem anns intruder_name)
            then dict_set anns intruder_name no_marks else anns in
          let anns := set_exit anns intruder_name frame in
          Some (anns,
                Some (Information "Annotation"
                        ("Marked exit for " ++ intruder_name ++ " at frame "
                           ++ str_of_int frame ++ ".")))
      else Some (anns, None)
  end.

(** One action of the operator on the dialog. *)
Inductive action : Type :=
| MarkEnter (current_position : Z) (answer : string * bool)
| MarkExit (current_position : Z) (picked : nat * bool) (typed : string * bool).

Definition perform (fps : Float64.float) (anns : annotations) (a : action)
  : option (annotations * option message_box) :=
  match a with
  | MarkEnter p answer => mark_enter anns fps p answer
  | MarkExit p picked typed => mark_exit anns fps p picked typed
  end.

(** The stored marks of a label. *)
Definition enter_of (anns : annotations) (label : string) : option Z :=
  match dict_get anns label with Some m => enter m | None => None end.

Definition exit_of (anns : annotations) (label : string) : option Z :=
  match dict_get anns label with Some m => exit m | None => None end.

(** The stores the dialog can hold: it starts from the empty dictionary
    (line 242) and changes it through the two buttons only. *)
Inductive reachable (fps : Float64.float) : annotations -> Prop :=
| reachable_empty : reachable fps []
| reachable_step anns a anns' shown :
    reachable fps anns ->
    perform fps anns a = Some (anns', shown) ->
    reachable fps anns'.

(** Marks are frame numbers, counted from 1. *)
Definition marks_from_one (m : marks) : Prop :=
  (forall v, enter m = Some v -> 1 <= v) /\ (forall v, exit m = Some v -> 1 <= v).

(** Keys are distinct and not empty, marks are frame numbers. *)
Definition well_formed (anns : annotations) : Prop :=
  NoDup (map fst anns)
  /\ Forall (fun item => fst item <> EmptyString /\ marks_from_one (snd item)) anns.

(** ** The normaliser: [video_to_avi] (lines 25-47)

    [subprocess.run] hands back the exit status and the bytes of the error
    stream; [stderr_utf8] is [process.stderr.decode('utf-8')], which raises
    on bytes that are not UTF-8. *)

Record completed_process : Type :=
  { returncode : Z; stderr_utf8 : option string }.

(** [avi_size] is the state of [avi_path] once ffmpeg has run: [None] when
    [avi_path.exists()] is false, otherwise [avi_path.stat().st_size]. *)
Definition video_to_avi (input_path avi_path : string)
    (process : completed_process) (avi_size : option Z)
  : option (bool * string) :=
  if negb (returncode process =? 0) then
    match stderr_utf8 process with
    | Some err => Some (false, "FFmpeg error: " ++ err)%string
    | None => None
    end
  else if match avi_size with
          | None => true
          | Some st_size => st_size <? 1000
          end
  then Some (false, "Output AVI file " ++ avi_path ++ " seems empty or invalid.")%string
  else Some (true, "Converted " ++ input_path ++ " to temporary AVI: " ++ avi_path)%string.

(** What the three checks of the normaliser look for. *)
Definition nonzero_status (process : completed_process) : Prop :=
  returncode process <> 0.

Definition output_missing (avi_size : option Z) : Prop := avi_size = None.

Definition output_too_small (avi_size : option Z) : Prop :=
  exists st_size, avi_size = Some st_size /\ st_size < 1000.

Definition reports_success (r : option (bool * string)) : Prop :=
  exists message, r = Some (true, message).

(** A failure is reported by a [(False, message)] result, which the caller
    shows in an error box (lines 645-649); an exception is no report. *)
Definition reports_failure (r : option (bool * string)) : Prop :=
  exists message, r = Some (false, message).

(** A run of ffmpeg that fails with an error stream that is not UTF-8, as
    when it names a file whose name is in another encoding. *)
Definition failed_undecodable : completed_process :=
  {| returncode := 1; stderr_utf8 := None |}.

(** ** Intervals

    The tuples [(enter_frame, exit_frame, intruder)] of
    [clip_by_annotations]. *)

Definition interval : Type := Z * Z * string.

Definition iv_enter (x : interval) : Z := fst (fst x).   (* x[0] *)
Definition iv_exit (x : interval) : Z := snd (fst x).    (* x[1] *)
Definition iv_label (x : interval) : string := snd x.    (* x[2] *)

Definition incomplete_message (intruder : string) : string :=
  "Incomplete annotation for intruder '" ++ intruder ++ "'.".

Definition inverted_message (intruder : string) : string :=
  "Exit frame occurs before enter frame for intruder '" ++ intruder ++ "'.".

Definition overlap_message (a b : string) : string :=
  "Overlapping intruder intervals found between '" ++ a ++ "' and '" ++ b ++ "'.".

(** The first loop (lines 736-744): [items] is what is left of
    [annotations.items()], [intervals] the list built so far. *)
Fixpoint collect_intervals (items : annotations) (intervals : list interval)
  : (bool * string) + list interval :=
  match items with
  | [] => inr intervals
  | (intruder, data) :: items' =>
      match enter data, exit data with
      | Some enter_frame, Some exit_frame =>
          if exit_frame <? enter_frame
          then inl (false, inverted_message intruder)
          else collect_intervals items'
                 (intervals ++ [(enter_frame, exit_frame, intruder)])
      | _, _ => inl (false, incomplete_message intruder)
      end
  end.

(** [intervals.sort(key=lambda x: x[0])] (line 746).  [list.sort] is stable;
    the stable sort of a list is unique ([stable_sort_unique] below), so an
    insertion sort that never moves an element over an equal key computes
    the same list. *)
Fixpoint insert_by_enter (x : interval) (l : list interval) : list interval :=
  match l with
  | [] => [x]
  | y :: l' =>
      if iv_enter x <=? iv_enter y then x :: y :: l'
      else y :: insert_by_enter x l'
  end.

Fixpoint sort_by_enter (l : list interval) : list interval :=
  match l with
  | [] => []
  | x :: l' => insert_by_enter x (sort_by_enter l')
  end.

(** The overlap loop (lines 748-753): the first index [i] with
    [intervals[i+1][0] <= intervals[i][1]]. *)
Fixpoint first_overlap (intervals : list interval) : option (interval * interval) :=
  match intervals with
  | [] => None
  | current :: rest =>
      match rest with
      | [] => None
      | next :: _ =>
          if iv_enter next <=? iv_exit current then Some (current, next)
          else first_overlap rest
      end
  end.

(** Validation as [clip_by_annotations] performs it before it touches the
    video (lines 736-753). *)
Definition validate (anns : annotations) : (bool * string) + list interval :=
  match collect_intervals anns [] with
  | inl failure => inl failure
  | inr intervals =>
      let intervals := sort_by_enter intervals in
      match first_overlap intervals with
      | Some (a, b) => inl (false, overlap_message (iv_label a) (iv_label b))
      | None => inr intervals
      end
  end.

(** ** Sets of intervals, as the specification speaks of them *)

Definition complete_marks (m : marks) : Prop :=
  enter m <> None /\ exit m <> None.

Definition complete (anns : annotations) : Prop :=
  Forall (fun item => complete_marks (snd item)) anns.

(** The interval of a complete entry. *)
Definition interval_of (item : string * marks) : option interval :=
  match enter (snd item), exit (snd item) with
  | Some enter_frame, Some exit_frame => Some (enter_frame, exit_frame, fst item)
  | _, _ => None
  end.

(** An entry that holds the interval [x]. *)
Definition item_of (x : interval) : string * marks :=
  (iv_label x, {| enter := Some (iv_enter x); exit := Some (iv_exit x) |}).

Definition inverted (x : interval) : Prop := iv_exit x < iv_enter x.

(** Touching boundaries overlap. *)
Definition overlaps (current next : interval) : Prop :=
  iv_enter next <= iv_exit current.

Definition disjoint (a b : interval) : Prop :=
  iv_exit a < iv_enter b \/ iv_exit b < iv_enter a.

(** The intervals of a store, in insertion order. *)
Fixpoint intervals_of (anns : annotations) : list interval :=
  match anns with
  | [] => []
  | item :: anns' =>
      match interval_of item with
      | Some x => x :: intervals_of anns'
      | None => intervals_of anns'
      end
  end.

(** No interval of the store ends before it starts. *)
Definition proper (x : interval) : Prop := iv_enter x <= iv_exit x.

Definition non_inverted (anns : annotations) : Prop :=
  Forall proper (intervals_of anns).

(** No two intervals of the store share a frame. *)
Definition non_overlapping (anns : annotations) : Prop :=
  ForallOrdPairs disjoint (intervals_of anns).

(** Every marked frame is a frame number, counted from 1. *)
Definition from_frame_one (intervals : list interval) : Prop :=
  Forall (fun x => 1 <= iv_enter x) intervals.

(** No adjacent pair of a list overlaps. *)
Inductive separated : list interval -> Prop :=
| separated_nil : separated []
| separated_one x : separated [x]
| separated_cons x y l :
    iv_exit x < iv_enter y -> separated (y :: l) -> separated (x :: y :: l).

Definition enter_le (a b : interval) : Prop := iv_enter a <= iv_enter b.

Definition same_enter (k : Z) (x : interval) : bool := iv_enter x =? k.

(** [l'] holds the elements of [l], those of equal [enter_frame] in the order
    they have in [l]. *)
Definition stable (l l' : list interval) : Prop :=
  forall k, filter (same_enter k) l' = filter (same_enter k) l.

(** ** The extractor: OpenCV as [clip_by_annotations] uses it *)

Section Clipper.

Context {frame : Type}.

(** A video file as [cv2.VideoCapture] presents it. *)
Record Video : Type :=
  { video_frames : list frame;
    video_fps : Float64.float;      (* cap.get(cv2.CAP_PROP_FPS) *)
    video_width : Z;                (* int(cap.get(cv2.CAP_PROP_FRAME_WIDTH)) *)
    video_height : Z }.             (* int(cap.get(cv2.CAP_PROP_FRAME_HEIGHT)) *)

(** The world outside the program: which paths open as a source
    ([cap.isOpened()]), which open as a sink, and [pathlib]'s [/]. *)
Record Env : Type :=
  { open_capture : string -> option Video;
    writer_opens : string -> bool;
    path_join : string -> string -> string }.

(** The fields of [MainWindow] that [clip_by_annotations] reads. *)
Record MainWindow : Type :=
  { output_file_stem : string;
    output_file_suffix : string;
    output_file_parent : string;
    output_folder : option string;
    output_folder_checked : bool;      (* self.output_folder_checkbox.isChecked() *)
    input_file_name : string }.

(** An open [cv2.VideoCapture]: the frames and the read position. *)
Record VideoCapture : Type :=
  { cap_frames : list frame; cap_pos : Z }.

(** [cap.set(cv2.CAP_PROP_POS_FRAMES, n)] *)
Definition cap_set (cap : VideoCapture) (n : Z) : VideoCapture :=
  {| cap_frames := cap_frames cap; cap_pos := n |}.

(** [ret, frame = cap.read()]: the frame at the read position, if any. *)
Definition cap_read (cap : VideoCapture) : option frame * VideoCapture :=
  if cap_pos cap <? 0 then (None, cap)
  else
    match nth_error (cap_frames cap) (Z.to_nat (cap_pos cap)) with
    | Some f => (Some f, {| cap_frames := cap_frames cap; cap_pos := cap_pos cap + 1 |})
    | None => (None, cap)
    end.

(** A [cv2.VideoWriter].  The constructor does not raise when the file
    cannot be opened, and [write] on a writer that is not open writes
    nothing: [writer_frames] is what the file holds. *)
Record VideoWriter : Type :=
  { writer_path : string;
    writer_fps : Float64.float;
    writer_size : Z * Z;
    writer_opened : bool;
    writer_frames : list frame }.

Definition new_writer (env : Env) (path : string) (fps : Float64.float)
    (size : Z * Z) : VideoWriter :=
  {| writer_path := path; writer_fps := fps; writer_size := size;
     writer_opened := writer_opens env path; writer_frames := [] |}.

Definition writer_write (w : VideoWriter) (f : frame) : VideoWriter :=
  if writer_opened w then
    {| writer_path := writer_path w; writer_fps := writer_fps w;
       writer_size := writer_size w; writer_opened := true;
       writer_frames := writer_frames w ++ [f] |}
  else w.

(** The calls made on the source and on the sinks, in order. *)
Inductive event : Type :=
| CapOpen (path : string)
| CapSet (pos : Z)
| CapRead (ret : bool)
| CapRelease
| WriterOpen (path : string)
| WriterWrite (path : string) (f : frame)
| WriterRelease (path : string).

(** [f"{self.output_file.stem}_{intruder}intruder{self.output_file.suffix}"] *)
Definition output_name (self : MainWindow) (intruder : string) : string :=
  output_file_stem self ++ "_" ++ intruder ++ "intruder" ++ output_file_suffix self.

(** Lines 767-770. *)
Definition out_path (env : Env) (self : MainWindow) (intruder : string) : string :=
  match output_folder self with
  | Some folder =>
      if negb (String.eqb folder EmptyString) && output_folder_checked self
      then path_join env folder (output_name self intruder)
      else path_join env (output_file_parent self) (output_name self intruder)
  | None => path_join env (output_file_parent self) (output_name self intruder)
  end.

(** The [while] loop of lines 774-779. *)
Equations? write_frames (cap : VideoCapture) (out_writer : VideoWriter)
    (current_frame exit_frame : Z) (log : list event)
  : VideoCapture * VideoWriter * list event
  by wf (Z.to_nat (exit_frame + 1 - current_frame)) lt :=
write_frames cap out_writer current_frame exit_frame log
  with Z_le_gt_dec current_frame exit_frame := {
  | left _ with cap_read cap := {
    | (Some f, cap') =>
        write_frames cap' (writer_write out_writer f) (current_frame + 1) exit_frame
          (log ++ [CapRead true; WriterWrite (writer_path out_writer) f])
    | (None, cap') => (cap', out_writer, log ++ [CapRead false]) }
  | right _ => (cap, out_writer, log) }.
Proof. lia. Qed.

(** The state of the [for] loop: the capture, the writers released so far
    and the calls made so far. *)
Definition extractor : Type := VideoCapture * list VideoWriter * list event.

(** The body of the [for] loop (lines 765-780). *)
Definition clip_interval (env : Env) (self : MainWindow)
    (fps : Float64.float) (size : Z * Z) (st : extractor) (x : interval)
  : extractor :=
  let '(cap, released, log) := st in
  let '(enter_frame, exit_frame, intruder) := x in
  let path := out_path env self intruder in
  let out_writer := new_writer env path fps size in
  let cap := cap_set cap (enter_frame - 1) in
  let '(cap, out_writer, log) :=
    write_frames cap out_writer enter_frame exit_frame
      (log ++ [WriterOpen path; CapSet (enter_frame - 1)]) in
  (cap, released ++ [out_writer], log ++ [WriterRelease path]).

(** What a call of [clip_by_annotations] leaves behind: the pair it returns,
    the calls it made, and the writers it released. *)
Record outcome : Type :=
  { result : bool * string;
    trace : list event;
    clips : list VideoWriter }.

Definition success_message (self : MainWindow) : string :=
  "Successfully clipped intruders for file " ++ input_file_name self ++ ".".

Definition unopenable_message (video_path : string) : string :=
  "Could not open " ++ video_path ++ " for clipping.".

(** [MainWindow.clip_by_annotations] (lines 735-782). *)
Definition clip_by_annotations (env : Env) (self : MainWindow)
    (anns : annotations) (video_path : string) : outcome :=
  match collect_intervals anns [] with
  | inl failure => {| result := failure; trace := []; clips := [] |}
  | inr intervals =>
      let intervals := sort_by_enter intervals in
      match first_overlap intervals with
      | Some (a, b) =>
          {| result := (false, overlap_message (iv_label a) (iv_label b));
             trace := []; clips := [] |}
      | None =>
          match open_capture env video_path with
          | None =>
              {| result := (false, unopenable_message video_path);
                 trace := [CapOpen video_path]; clips := [] |}
          | Some video =>
              let cap := {| cap_frames := video_frames video; cap_pos := 0 |} in
              let fps := default_fps (video_fps video) in
              let size := (video_width video, video_height video) in
              let '(_, released, log) :=
                fold_left (clip_interval env self fps size) intervals
                  (cap, [], [CapOpen video_path]) in
              {| result := (true, success_message self);
                 trace := log ++ [CapRelease];
                 clips := released |}
          end
      end
  end.

(** ** Clips, as the specification speaks of them *)

(** Frames [enter_frame] to [exit_frame] of a video, counted from 1. *)
Definition frames_between (frames : list frame) (enter_frame exit_frame : Z)
  : list frame :=
  firstn (Z.to_nat (exit_frame - enter_frame + 1))
    (skipn (Z.to_nat (enter_frame - 1)) frames).

(** The writer that an interval leaves behind, and the calls made for it. *)
Definition clip_of (env : Env) (self : MainWindow) (video : Video)
    (x : interval) : VideoWriter :=
  let path := out_path env self (iv_label x) in
  {| writer_path := path;
     writer_fps := default_fps (video_fps video);
     writer_size := (video_width video, video_height video);
     writer_opened := writer_opens env path;
     writer_frames :=
       if writer_opens env path
       then frames_between (video_frames video) (iv_enter x) (iv_exit x)
       else [] |}.

Definition copy_events (path : string) (frames : list frame) : list event :=
  flat_map (fun f => [CapRead true; WriterWrite path f]) frames.

(** The tail of the calls of one loop: a failed read ends it when the video
    is shorter than the interval. *)
Definition failed_read (current_frame exit_frame : Z) (frames : list frame)
  : list event :=
  if (current_frame <=? exit_frame) && (Z.of_nat (List.length frames) <? exit_frame)
  then [CapRead false] else [].

Definition events_of (env : Env) (self : MainWindow) (video : Video)
    (x : interval) : list event :=
  let path := out_path env self (iv_label x) in
  [WriterOpen path; CapSet (iv_enter x - 1)]
    ++ copy_events path (frames_between (video_frames video) (iv_enter x) (iv_exit x))
    ++ failed_read (iv_enter x) (iv_exit x) (video_frames video)
    ++ [WriterRelease path].

(** The calls made for one interval whose frames [copied] could be read;
    [exhausted] tells whether a failed read ended the loop. *)
Definition interval_calls (path : string) (enter_frame : Z)
    (copied : list frame) (exhausted : bool) : list event :=
  [WriterOpen path; CapSet (enter_frame - 1)]
    ++ copy_events path copied
    ++ (if exhausted then [CapRead false] else [])
    ++ [WriterRelease path].

End Clipper.

Arguments Video : clear implicits.
Arguments Env : clear implicits.
Arguments VideoCapture : clear implicits.
Arguments VideoWriter : clear implicits.
Arguments event : clear implicits.
Arguments outcome : clear implicits.
Arguments extractor : clear implicits.

(** ** Two statements of the specification, as they stand

    Whichever inverted interval a store holds, the failure names it. *)
Definition every_inverted_named : Prop :=
  forall anns x,
    In (item_of x) anns -> inverted x ->
    validate anns = inl (false, inverted_message (iv_label x)).

(** A sink that cannot be opened shows in what [clip_by_annotations]
    returns, the only report the method makes: the pair is not the one of a
    run without failure. *)
Definition sink_failure_reported : Prop :=
  forall (env : Env nat) (self : MainWindow) anns video_path s x,
    validate anns = inr s -> In x s ->
    writer_opens env (out_path env self (iv_label x)) = false ->
    result (clip_by_annotations env self anns video_path)
    <> (true, success_message self).

(** ** A session for the examples

    A source of 100 frames at 25 fps (frame [k] is the number [k]); clips go
    to the folder [clips]; the sink of intruder [Z] cannot be opened. *)

Definition demo_video : Video nat :=
  {| video_frames := seq 1 100;
     video_fps := Float64.of_int 25;
     video_width := 640;
     video_height := 480 |}.

Definition demo_env : Env nat :=
  {| open_capture := fun path =>
       if String.eqb path "session.avi" then Some demo_video else None;
     writer_opens := fun path =>
       negb (String.eqb path "clips/session_Zintruder.mp4");
     path_join := fun dir name => (dir ++ "/" ++ name)%string |}.

Definition demo_window : MainWindow :=
  {| output_file_stem := "session";
     output_file_suffix := ".mp4";
     output_file_parent := "clips";
     output_folder := None;
     output_folder_checked := false;
     input_file_name := "session.seq" |}.

(** Stores of the examples, each entry an interval
    [(enter_frame, exit_frame, label)]. *)

Definition store_touching : annotations :=
  [item_of (1, 10, "A"%string); item_of (15, 20, "B"%string); item_of (20, 25, "C"%string)].

Definition store_unordered : annotations :=
  [item_of (15, 20, "B"%string); item_of (1, 10, "A"%string)].

Definition store_two_inverted : annotations :=
  [item_of (30, 10, "X"%string); item_of (50, 40, "Y"%string)].

Definition store_inverted_last : annotations :=
  [item_of (1, 10, "A"%string); item_of (30, 10, "Y"%string); item_of (5, 8, "B"%string)].

Definition store_clip : annotations :=
  [item_of (40, 60, "W"%string); item_of (10, 30, "X"%string)].

Definition store_beyond : annotations :=
  [item_of (95, 120, "Y"%string); item_of (10, 30, "X"%string)].

Definition store_sink : annotations :=
  [item_of (5, 8, "Z"%string); item_of (10, 30, "X"%string)].

Definition store_marked : annotations :=
  [("A"%string, {| enter := Some 3; exit := Some 9 |})].

Definition store_incomplete_first : annotations :=
  [("I"%string, {| enter := Some 3; exit := None |});
   item_of (30, 10, "Y"%string)].

Definition store_ties : annotations :=
  [item_of (5, 9, "P"%string); item_of (1, 2, "Q"%string);
   item_of (5, 6, "R"%string)].

(** ** The format table and the dispatch of conversions

    [self.OUTPUT_FORMATS] (lines 544-558), a dictionary from the extension
    of the input file to the extensions offered for the output. *)

Definition OUTPUT_FORMATS : list (string * list string) :=
  [(".seq",  [".mp4"]);
   (".avi",  [".mp4"; ".avi"; ".mov"; ".mkv"; ".gif"]);
   (".mov",  [".mp4"; ".avi"; ".mov"; ".mkv"; ".gif"]);
   (".mkv",  [".mp4"; ".avi"; ".mov"; ".mkv"; ".gif"]);
   (".mp4",  [".mp4"; ".avi"; ".mov"; ".mkv"; ".gif"]);
   (".jpg",  [".jpg"; ".png"; ".tiff"; ".bmp"; ".pdf"]);
   (".jpeg", [".jpg"; ".png"; ".tiff"; ".bmp"; ".pdf"]);
   (".png",  [".jpg"; ".png"; ".tiff"; ".bmp"; ".pdf"]);
   (".tiff", [".jpg"; ".png"; ".tiff"; ".bmp"; ".pdf"]);
   (".bmp",  [".jpg"; ".png"; ".tiff"; ".bmp"; ".pdf"]);
   (".pdf",  [".jpg"; ".png"; ".docx"; ".txt"]);
   (".docx", [".pdf"; ".txt"]);
   (".txt",  [".pdf"; ".docx"])]%string.

(** [OUTPUT_FORMATS[ext]], [None] when [ext not in OUTPUT_FORMATS]. *)
Fixpoint formats_get (table : list (string * list string)) (ext : string)
  : option (list string) :=
  match table with
  | [] => None
  | (k, v) :: table' => if String.eqb k ext then Some v else formats_get table' ext
  end.

(** [MainWindow.update_output_options] (lines 591-596): the items of the
    output combo box once a file of extension [current_extension] is
    selected. *)
Definition update_output_options (current_extension : string) : list string :=
  match formats_get OUTPUT_FORMATS current_extension with
  | Some formats => formats
  | None => [".mp4"%string]
  end.

(** [x in exts] for a list of strings. *)
Definition ext_in (x : string) (exts : list string) : bool :=
  existsb (String.eqb x) exts.

Definition video_exts : list string :=
  [".mp4"; ".avi"; ".mov"; ".mkv"; ".gif"]%string.

Definition image_exts : list string :=
  [".jpg"; ".jpeg"; ".png"; ".tiff"; ".bmp"]%string.

(** [MainWindow.determine_conversion_type] (lines 693-718). *)
Definition determine_conversion_type (input_ext output_ext : string) : string :=
  if String.eqb input_ext ".seq" && String.eqb output_ext ".mp4" then "seq_to_mp4"
  else if ext_in input_ext video_exts && ext_in output_ext video_exts
  then "video_to_video"
  else if ext_in input_ext image_exts && ext_in output_ext image_exts
  then "image_to_image"
  else if ext_in input_ext image_exts && String.eqb output_ext ".pdf"
  then "image_to_pdf"
  else if String.eqb input_ext ".pdf" && ext_in output_ext image_exts
  then "pdf_to_image"
  else if String.eqb input_ext ".pdf" && String.eqb output_ext ".docx"
  then "pdf_to_docx"
  else if String.eqb input_ext ".pdf" && String.eqb output_ext ".txt"
  then "pdf_to_txt"
  else if String.eqb input_ext ".docx" && String.eqb output_ext ".pdf"
  then "docx_to_pdf"
  else if String.eqb input_ext ".docx" && String.eqb output_ext ".txt"
  then "docx_to_txt"
  else if String.eqb input_ext ".txt" && String.eqb output_ext ".pdf"
  then "txt_to_pdf"
  else if String.eqb input_ext ".txt" && String.eqb output_ext ".docx"
  then "txt_to_docx"
  else "generic_conversion".

(** The methods of [ConversionThread] that [run] can call. *)
Inductive converter : Type :=
| call_seq_to_mp4
| call_ffmpeg_video_convert
| call_image_to_image
| call_image_to_pdf
| call_pdf_to_image
| call_pdf_to_docx
| call_pdf_to_txt
| call_docx_to_pdf
| call_docx_to_txt
| call_txt_to_pdf
| call_txt_to_docx
| call_generic_conversion.

(** The chain of comparisons of [ConversionThread.run] (lines 65-88): the
    method called for [self.conversion_type]. *)
Definition run_branch (conversion_type : string) : converter :=
  if String.eqb conversion_type "seq_to_mp4" then call_seq_to_mp4
  else if String.eqb conversion_type "video_to_video" then call_ffmpeg_video_convert
  else if String.eqb conversion_type "image_to_image" then call_image_to_image
  else if String.eqb conversion_type "image_to_pdf" then call_image_to_pdf
  else if String.eqb conversion_type "pdf_to_image" then call_pdf_to_image
  else if String.eqb conversion_type "pdf_to_docx" then call_pdf_to_docx
  else if String.eqb conversion_type "pdf_to_txt" then call_pdf_to_txt
  else if String.eqb conversion_type "docx_to_pdf" then call_docx_to_pdf
  else if String.eqb conversion_type "docx_to_txt" then call_docx_to_txt
  else if String.eqb conversion_type "txt_to_pdf" then call_txt_to_pdf
  else if String.eqb conversion_type "txt_to_docx" then call_txt_to_docx
  else call_generic_conversion.

(** What a method does when it is called: it returns its pair or raises, and
    [str(e)] is the text of the exception. *)
Inductive call_result : Type :=
| Returned (success : bool) (msg : string)
| Raised (text : string).

(** [ConversionThread.run] (lines 62-91): the pair that
    [self.finished_signal] emits.  [call] is the behaviour of the methods on
    the files of the thread. *)
Definition run (conversion_type : string) (call : converter -> call_result)
  : bool * string :=
  match call (run_branch conversion_type) with
  | Returned success msg => (success, msg)
  | Raised text => (false, text)
  end.

(** The names of the conversion types and the method that carries each
    name. *)
Definition named_converters : list (string * converter) :=
  [("seq_to_mp4", call_seq_to_mp4);
   ("video_to_video", call_ffmpeg_video_convert);
   ("image_to_image", call_image_to_image);
   ("image_to_pdf", call_image_to_pdf);
   ("pdf_to_image", call_pdf_to_image);
   ("pdf_to_docx", call_pdf_to_docx);
   ("pdf_to_txt", call_pdf_to_txt);
   ("docx_to_pdf", call_docx_to_pdf);
   ("docx_to_txt", call_docx_to_txt);
   ("txt_to_pdf", call_txt_to_pdf);
   ("txt_to_docx", call_txt_to_docx);
   ("generic_conversion", call_generic_conversion)]%string.

(** ** The output folder option

    The check box "Select Output Folder", the button "Choose Folder" and the
    field [self.output_folder] (lines 490-498, 537). *)

Record folder_option : Type :=
  { chosen_folder : option string;     (* self.output_folder *)
    box_checked : bool;                (* self.output_folder_checkbox.isChecked() *)
    choose_enabled : bool }.           (* self.output_folder_button.isEnabled() *)

(** The window as [__init__] leaves it. *)
Definition folder_option_start : folder_option :=
  {| chosen_folder := None; box_checked := false; choose_enabled := false |}.

(** [Qt.CheckState.Checked.value] *)
Definition Checked : Z := 2.

(** [MainWindow.toggle_output_folder_button] (lines 561-566). *)
Definition toggle_output_folder_button (g : folder_option) (state : Z)
  : folder_option :=
  if state =? Checked then
    {| chosen_folder := chosen_folder g; box_checked := box_checked g;
       choose_enabled := true |}
  else
    {| chosen_folder := None; box_checked := box_checked g;
       choose_enabled := false |}.

(** [MainWindow.select_output_folder] (lines 568-571); [folder] is what
    [QFileDialog.getExistingDirectory] returns, the empty string when the
    dialog is cancelled. *)
Definition select_output_folder (g : folder_option) (folder : string)
  : folder_option :=
  if negb (String.eqb folder EmptyString) then
    {| chosen_folder := Some folder; box_checked := box_checked g;
       choose_enabled := choose_enabled g |}
  else g.

(** What the operator does to the option.  Qt sets the state of the box and
    then emits [stateChanged(state)]; a button that is not enabled does not
    emit [clicked]. *)
Inductive folder_event : Type :=
| BoxSet (state : Z)
| ChooseClicked (folder : string).

Definition folder_handle (g : folder_option) (ev : folder_event) : folder_option :=
  match ev with
  | BoxSet state =>
      toggle_output_folder_button
        {| chosen_folder := chosen_folder g; box_checked := state =? Checked;
           choose_enabled := choose_enabled g |}
        state
  | ChooseClicked folder =>
      if choose_enabled g then select_output_folder g folder else g
  end.

(** The option after a sequence of events on a fresh window. *)
Definition folder_after (events : list folder_event) : folder_option :=
  fold_left folder_handle events folder_option_start.

(** ** Sessions of the annotation dialog *)

(** The store after a sequence of actions, [None] when one of them raised. *)
Fixpoint perform_all (fps : Float64.float) (anns : annotations)
    (actions : list action) : option annotations :=
  match actions with
  | [] => Some anns
  | a :: actions' =>
      match perform fps anns a with
      | Some (anns', _) => perform_all fps anns' actions'
      | None => None
      end
  end.

(** ** The sequence converter: [ConversionThread.seq_to_mp4] (lines 93-117) *)

(** [int((frame_count / total_frames) * 100)] (line 113): the quotient of
    the two counts as a binary64 number, times 100, truncated; [None] when
    [int] raises.  Both counts convert exactly below 2^53, where this is
    the quotient that Python computes. *)
Definition progress_percent (frame_count total_frames : Z) : option Z :=
  Float64.to_int
    (Float64.mul
       (Float64.div (Float64.of_int frame_count) (Float64.of_int total_frames))
       (Float64.of_int 100)).

(** A value together with the proof that it is the value of [a], for the
    loops whose termination depends on what a call returned. *)
Definition inspect {A : Type} (a : A) : {b : A | a = b} := exist _ a eq_refl.

(** The percentages of the frames [frame_count + 1 .. frame_count + n]. *)
Definition percentages (frame_count : Z) (n : nat) (total_frames : Z)
  : list (option Z) :=
  map (fun i => progress_percent (frame_count + Z.of_nat i) total_frames) (seq 1 n).

Section SeqToMp4.

Context {frame : Type}.

(** The [while True] loop of lines 106-114: [emitted] holds the values sent
    on [progress_signal] so far.  The loop ends at the first read that
    fails; the result is [None] when line 113 raises. *)
Equations? copy_frames (cap : VideoCapture frame) (out : VideoWriter frame)
    (frame_count total_frames : Z) (emitted : list Z)
  : option (VideoCapture frame * VideoWriter frame * Z * list Z)
  by wf (List.length (cap_frames cap) - Z.to_nat (cap_pos cap))%nat lt :=
copy_frames cap out frame_count total_frames emitted
  with inspect (cap_read cap) := {
  | exist _ (Some f, cap') read with 0 <? total_frames := {
    | true with inspect (progress_percent (frame_count + 1) total_frames) := {
      | exist _ (Some percent) computed =>
          copy_frames cap' (writer_write out f) (frame_count + 1) total_frames
            (emitted ++ [percent])
      | exist _ None raised => None }
    | false =>
        copy_frames cap' (writer_write out f) (frame_count + 1) total_frames
          emitted }
  | exist _ (None, cap') ended => Some (cap', out, frame_count, emitted) }.
Proof.
  all: unfold cap_read in read;
    destruct (cap_pos cap <? 0) eqn:Hpos; [discriminate|];
    destruct (nth_error (cap_frames cap) (Z.to_nat (cap_pos cap))) eqn:Hnth;
    [|discriminate];
    inversion read; subst; simpl;
    assert (Z.to_nat (cap_pos cap) < List.length (cap_frames cap))%nat
      by (apply nth_error_Some; congruence);
    apply Z.ltb_ge in Hpos; lia.
Qed.

(** What a run of the converter leaves behind: the pair it returns, the
    writer it released, if it made one, and the values it sent on
    [progress_signal]. *)
Record conversion : Type :=
  { reply : bool * string;
    written : option (VideoWriter frame);
    progress : list Z }.

(** [ConversionThread.seq_to_mp4].  [reported_frames] is
    [int(cap.get(cv2.CAP_PROP_FRAME_COUNT)) or 0] (line 105), the number of
    frames the container announces, which need not be the number of frames
    that can be read. *)
Definition seq_to_mp4 (env : Env frame) (input_file output_file : string)
    (reported_frames : Z) : option conversion :=
  match open_capture env input_file with
  | None =>
      Some {| reply := (false, ("Could not open " ++ input_file ++ " as .seq.")%string);
              written := None; progress := [] |}
  | Some video =>
      let fps := default_fps (video_fps video) in
      let out :=
        new_writer env output_file fps (video_width video, video_height video) in
      let total_frames := reported_frames in
      match copy_frames {| cap_frames := video_frames video; cap_pos := 0 |}
              out 0 total_frames [] with
      | Some (_, out, _, emitted) =>
          Some {| reply := (true, ("Converted .seq to .mp4: " ++ output_file)%string);
                  written := Some out; progress := emitted |}
      | None => None
      end
  end.

End SeqToMp4.

(** ** The batch: [start_conversion], [process_next_file] and
    [on_conversion_finished] (lines 606-691 and 724-733) *)

Module Batch.

(** A [pathlib.Path] as [MainWindow] uses it: the directory and the name
    of the file.  [p.parent / name] is the path of [name] in the directory
    of [p]. *)
Record Path : Type := { parent : string; name : string }.

Section Batch.

Context {frame : Type}.

(** What lies outside the window.  The files of a batch are told apart by
    their index in [self.file_list]: [ffmpeg] and [avi_size] are what
    [video_to_avi] meets for the file at that index, [annotated] the store
    of the annotation dialog when [exec()] is [Accepted] and [None]
    otherwise, [temp_exists] the [self.temp_avi_file.exists()] of line 667,
    [methods] the behaviour of the methods of the [ConversionThread] of that
    file. *)
Record World : Type :=
  { env : Env frame;
    lower : string -> string;              (* str.lower *)
    stem : string -> string;               (* Path.stem, from the name *)
    suffix : string -> string;             (* Path.suffix, from the name *)
    ffmpeg : nat -> completed_process;
    avi_size : nat -> option Z;
    annotated : nat -> option annotations;
    temp_exists : nat -> bool;
    methods : nat -> converter -> call_result }.

(** [str(p)] *)
Definition path_str (world : World) (p : Path) : string :=
  path_join (env world) (parent p) (name p).

(** [p.with_suffix(ext)]: the name is the stem followed by [ext].  The
    extensions passed are the items of the output combo box, which
    [with_suffix] accepts. *)
Definition with_suffix (world : World) (p : Path) (ext : string) : Path :=
  {| parent := parent p; name := stem world (name p) ++ ext |}.

(** The fields and widgets of [MainWindow] that the batch reads or writes
    (lines 534-542 for the fields). *)
Record Window : Type :=
  { input_file : option Path;
    input_files : option (list Path);
    output_file : option Path;
    output_folder : option string;
    current_extension : option string;
    file_list : list Path;
    current_file_index : nat;
    temp_avi_file : option Path;
    multiple_files_checkbox : bool;        (* isChecked() *)
    output_folder_checkbox : bool;         (* isChecked() *)
    clip_checkbox : bool;                  (* isChecked() *)
    output_combo : string;                 (* currentText() *)
    convert_button : bool;                 (* isEnabled() *)
    select_file_button : bool;             (* isEnabled() *)
    progress_bar : Z }.                    (* value() *)

(** Lines 608-609 and 612-613. *)
Definition assign_list (w : Window) (files : list Path) : Window :=
  {| input_file := input_file w; input_files := input_files w;
     output_file := output_file w; output_folder := output_folder w;
     current_extension := current_extension w;
     file_list := files; current_file_index := 0;
     temp_avi_file := temp_avi_file w;
     multiple_files_checkbox := multiple_files_checkbox w;
     output_folder_checkbox := output_folder_checkbox w;
     clip_checkbox := clip_checkbox w; output_combo := output_combo w;
     convert_button := convert_button w;
     select_file_button := select_file_button w;
     progress_bar := progress_bar w |}.

(** Lines 621-627. *)
Definition assign_file (w : Window) (f : Path) (ext : string) (out : Path)
  : Window :=
  {| input_file := Some f; input_files := input_files w;
     output_file := Some out; output_folder := output_folder w;
     current_extension := Some ext;
     file_list := file_list w; current_file_index := current_file_index w;
     temp_avi_file := temp_avi_file w;
     multiple_files_checkbox := multiple_files_checkbox w;
     output_folder_checkbox := output_folder_checkbox w;
     clip_checkbox := clip_checkbox w; output_combo := output_combo w;
     convert_button := convert_button w;
     select_file_button := select_file_button w;
     progress_bar := progress_bar w |}.

(** Lines 643 and 652. *)
Definition assign_temp (w : Window) (temp : Path) : Window :=
  {| input_file := input_file w; input_files := input_files w;
     output_file := output_file w; output_folder := output_folder w;
     current_extension := current_extension w;
     file_list := file_list w; current_file_index := current_file_index w;
     temp_avi_file := Some temp;
     multiple_files_checkbox := multiple_files_checkbox w;
     output_folder_checkbox := output_folder_checkbox w;
     clip_checkbox := clip_checkbox w; output_combo := output_combo w;
     convert_button := convert_button w;
     select_file_button := select_file_button w;
     progress_bar := progress_bar w |}.

(** [self.convert_button.setEnabled(b)] and
    [self.select_file_button.setEnabled(b)]. *)
Definition enable_buttons (w : Window) (b : bool) : Window :=
  {| input_file := input_file w; input_files := input_files w;
     output_file := output_file w; output_folder := output_folder w;
     current_extension := current_extension w;
     file_list := file_list w; current_file_index := current_file_index w;
     temp_avi_file := temp_avi_file w;
     multiple_files_checkbox := multiple_files_checkbox w;
     output_folder_checkbox := output_folder_checkbox w;
     clip_checkbox := clip_checkbox w; output_combo := output_combo w;
     convert_button := b;
     select_file_button := b;
     progress_bar := progress_bar w |}.

(** [self.current_file_index += 1] and [self.progress_bar.setValue(0)]
    (lines 672-673 and 731-732). *)
Definition advance (w : Window) : Window :=
  {| input_file := input_file w; input_files := input_files w;
     output_file := output_file w; output_folder := output_folder w;
     current_extension := current_extension w;
     file_list := file_list w; current_file_index := S (current_file_index w);
     temp_avi_file := temp_avi_file w;
     multiple_files_checkbox := multiple_files_checkbox w;
     output_folder_checkbox := output_folder_checkbox w;
     clip_checkbox := clip_checkbox w; output_combo := output_combo w;
     convert_button := convert_button w;
     select_file_button := select_file_button w;
     progress_bar := 0 |}.

(** What the window does that can be seen from outside, in order: the
    message boxes, the calls of [video_to_avi], the annotation dialogs, the
    calls of [clip_by_annotations] with what they left, the calls of
    [os.remove] and the threads started. *)
Inductive effect : Type :=
| critical (title text : string)
| information (title text : string)
| warning (title text : string)
| normalising (input_path avi_path : Path)
| annotating (video : Path)
| clipping (video_path : Path) (made : outcome frame)
| removing (path : Path)
| converting (input output : Path) (conversion_type : string).

(** The output file of lines 624-627. *)
Definition output_for (world : World) (w : Window) (f : Path) (output_ext : string)
  : Path :=
  match output_folder w with
  | Some folder =>
      if negb (String.eqb folder EmptyString) && output_folder_checkbox w
      then {| parent := folder; name := stem world (name f) ++ output_ext |}
      else with_suffix world f output_ext
  | None => with_suffix world f output_ext
  end.

(** The window as [clip_by_annotations] reads it. *)
Definition self_of (world : World) (w : Window) (f out : Path) : MainWindow :=
  Build_MainWindow (stem world (name out)) (suffix world (name out)) (parent out)
    (output_folder w) (output_folder_checkbox w) (name f).

(** [self.input_file.suffix.lower()] (line 622). *)
Definition extension (world : World) (f : Path) : string :=
  lower world (suffix world (name f)).

(** [self.input_file.parent / (self.input_file.stem + "_temp.avi")]
    (line 643). *)
Definition temp_avi (world : World) (f : Path) : Path :=
  {| parent := parent f; name := stem world (name f) ++ "_temp.avi" |}.

(** How one activation of [process_next_file] ends: it returns, it calls
    itself (line 674), it returns with a thread started (line 687), or an
    exception leaves it. *)
Inductive activation : Type :=
| Return (w : Window) (log : list effect)
| Again (w : Window) (log : list effect)
| Started (w : Window) (log : list effect) (conversion_type : string)
| Raise (w : Window) (log : list effect).

Definition unsupported_message : string :=
  "Clipped output is only supported for .seq or .mp4 input to .mp4 output in this example.".

(** Lines 655-675: the dialog on [temp], the clips, the removal of the
    temporary file, the next file. *)
Definition annotate (world : World) (w : Window) (log : list effect)
    (f out temp : Path) (ext : string) : activation :=
  let index := current_file_index w in
  let log := log ++ [annotating temp] in
  let log :=
    match annotated world index with
    | Some annotations =>
        let made :=
          clip_by_annotations (env world) (self_of world w f out) annotations
            (path_str world temp) in
        let '(success, message) := result made in
        log ++ [clipping temp made;
                if success then information "Success" message
                else critical "Error" message]
    | None => log ++ [warning "Annotation" "Annotation cancelled."]
    end in
  let log :=
    if String.eqb ext ".seq" && temp_exists world index
    then log ++ [removing temp] else log in
  Again (advance w) log.

(** One activation of [MainWindow.process_next_file] (lines 619-691). *)
Definition process_next_file_body (world : World) (w : Window) (log : list effect)
  : activation :=
  match nth_error (file_list w) (current_file_index w) with
  | Some f =>
      let index := current_file_index w in
      let ext := extension world f in
      let output_ext := output_combo w in
      let out := output_for world w f output_ext in
      let w := assign_file w f ext out in
      if clip_checkbox w then
        if negb (ext_in ext [".seq"; ".mp4"]%string)
           || negb (String.eqb output_ext ".mp4")
        then Return (enable_buttons w true)
               (log ++ [critical "Error" unsupported_message])
        else if String.eqb ext ".seq" then
          let temp := temp_avi world f in
          let w := assign_temp w temp in
          match video_to_avi (path_str world f) (path_str world temp)
                  (ffmpeg world index) (avi_size world index) with
          | Some (true, _) =>
              annotate world w (log ++ [normalising f temp]) f out temp ext
          | Some (false, message) =>
              Return (enable_buttons w true)
                (log ++ [normalising f temp; critical "Error" message])
          | None => Raise w (log ++ [normalising f temp])
          end
        else annotate world (assign_temp w f) log f out f ext
      else
        let conversion_type := determine_conversion_type ext output_ext in
        Started (enable_buttons w false)
          (log ++ [converting f out conversion_type]) conversion_type
  | None =>
      Return (enable_buttons w true)
        (log ++ [information "Success" "All conversions completed."])
  end.

(** How [on_conversion_finished] ends: it returns, or it calls
    [process_next_file] (line 733). *)
Inductive finish : Type :=
| Stop (w : Window) (log : list effect)
| Next (w : Window) (log : list effect).

(** [MainWindow.on_conversion_finished] (lines 724-733), up to the call of
    [process_next_file]. *)
Definition on_conversion_finished (w : Window) (log : list effect)
    (emitted : bool * string) : finish :=
  let '(success, message) := emitted in
  if negb success
  then Stop (enable_buttons w true) (log ++ [critical "Error" message])
  else Next (advance w) log.

(** How the batch ends: control is back with the operator, or an exception
    has left an activation. *)
Inductive ending : Type :=
| Idle (w : Window) (log : list effect)
| Crashed (w : Window) (log : list effect).

Definition window_of (e : ending) : Window :=
  match e with Idle w _ | Crashed w _ => w end.

Definition log_of (e : ending) : list effect :=
  match e with Idle _ log | Crashed _ log => log end.

(** [MainWindow.process_next_file] with the activations it leads to: the
    call of line 674, and, when it started a thread, the call of line 733
    that the slot makes once the thread has run and emitted
    [finished_signal].  Nothing else touches the window in between. *)
Equations? process_next_file (world : World) (w : Window) (log : list effect)
  : ending
  by wf (List.length (file_list w) - current_file_index w)%nat lt :=
process_next_file world w log
  with inspect (process_next_file_body world w log) := {
  | exist _ (Return w' log') returned => Idle w' log'
  | exist _ (Again w' log') again => process_next_file world w' log'
  | exist _ (Started w' log' conversion_type) started
      with inspect
             (on_conversion_finished w' log'
                (run conversion_type (methods world (current_file_index w')))) := {
      | exist _ (Stop w'' log'') stopped => Idle w'' log''
      | exist _ (Next w'' log'') next => process_next_file world w'' log'' }
  | exist _ (Raise w' log') raised => Crashed w' log' }.
Proof.
  - unfold process_next_file_body, annotate in again.
    destruct (nth_error (file_list w) (current_file_index w)) eqn:Hnth;
      [|discriminate].
    assert (current_file_index w < List.length (file_list w))%nat
      by (apply nth_error_Some; congruence).
    cbn in again.
    repeat match type of again with
           | context [if ?c then _ else _] => destruct c
           | context [match ?c with _ => _ end] => destruct c
           end;
      try discriminate; inversion again; subst; cbn; lia.
  - unfold process_next_file_body, annotate in started.
    destruct (nth_error (file_list w) (current_file_index w)) eqn:Hnth;
      [|discriminate].
    assert (current_file_index w < List.length (file_list w))%nat
      by (apply nth_error_Some; congruence).
    cbn in started.
    repeat match type of started with
           | context [if ?c then _ else _] => destruct c
           | context [match ?c with _ => _ end] => destruct c
           end;
      try discriminate; inversion started; subst.
    unfold on_conversion_finished in next.
    destruct (run _ _) as [[|] message]; cbn in next; [|discriminate].
    inversion next; subst; cbn; lia.
Qed.

(** [MainWindow.start_conversion] (lines 606-617). *)
Definition start_conversion (world : World) (w : Window) (log : list effect)
  : ending :=
  match (if multiple_files_checkbox w then input_files w else None), input_file w with
  | Some ((_ :: _) as files), _ =>
      process_next_file world (assign_list w files) log
  | _, Some f =>
      process_next_file world (assign_list w [f]) log
  | _, None => Idle w (log ++ [warning "Warning" "No input file selected."])
  end.

(** ** The batch, as its properties speak of it *)

(** The settings that no activation changes. *)
Definition same_settings (w w' : Window) : Prop :=
  file_list w' = file_list w
  /\ output_folder w' = output_folder w
  /\ output_folder_checkbox w' = output_folder_checkbox w
  /\ clip_checkbox w' = clip_checkbox w
  /\ output_combo w' = output_combo w.

(** The effects of the files from [index] on, file by file. *)
Fixpoint effects_from (per_file : nat -> Path -> list effect) (index : nat)
    (files : list Path) : list effect :=
  match files with
  | [] => []
  | f :: files' => per_file index f ++ effects_from per_file (S index) files'
  end.

(** The files at the indices [first .. last - 1] of the list. *)
Definition files_between (w : Window) (first last : nat) : list Path :=
  firstn (last - first) (skipn first (file_list w)).


Definition removals (log : list effect) : list Path :=
  flat_map (fun e => match e with removing path => [path] | _ => [] end) log.

(** What [video_to_avi] returns for the file at [index]. *)
Definition normalised (world : World) (index : nat) (f : Path)
  : option (bool * string) :=
  video_to_avi (path_str world f) (path_str world (temp_avi world f))
    (ffmpeg world index) (avi_size world index).






(** The thread of a file and the pair it emits. *)
Definition conversion_type_of (world : World) (w : Window) (f : Path) : string :=
  determine_conversion_type (extension world f) (output_combo w).

Definition thread_effects (world : World) (w : Window) (index : nat) (f : Path)
  : list effect :=
  [converting f (output_for world w f (output_combo w))
     (conversion_type_of world w f)].

Definition emitted_by (world : World) (w : Window) (index : nat) (f : Path)
  : bool * string :=
  run (conversion_type_of world w f) (methods world index).

End Batch.

End Batch.

(** ** Objects of the examples, continued *)

Definition demo_window_exports : MainWindow :=
  {| output_file_stem := "session";
     output_file_suffix := ".mp4";
     output_file_parent := "clips";
     output_folder := Some "exports"%string;
     output_folder_checked := true;
     input_file_name := "session.seq" |}.

Definition demo_folder_events : list folder_event :=
  [BoxSet 2; ChooseClicked "exports"].

Definition store_open : annotations :=
  [("A"%string, {| enter := Some 3; exit := Some 9 |});
   ("B"%string, {| enter := Some 12; exit := None |});
   ("C"%string, {| enter := Some 20; exit := None |})].

Definition demo_session : list action :=
  [MarkEnter 400 ("A"%string, true);
   MarkExit 800 (0%nat, true) (EmptyString, false);
   MarkEnter 1200 ("B"%string, true);
   MarkExit 2000 (0%nat, true) (EmptyString, false)].

Definition demo_seq_env : Env nat :=
  {| open_capture := fun path =>
       if String.eqb path "session.seq" then Some demo_video else None;
     writer_opens := fun path => String.eqb path "clips/session.mp4";
     path_join := fun dir name => (dir ++ "/" ++ name)%string |}.

(** A world for the examples of the batch: names are split at their last
    dot and are in lower case already; ffmpeg fails for the file at index
    2; the operator accepts the dialog of the first file and cancels the
    others; the thread of the file at index 1 fails. *)
Fixpoint demo_suffix (s : string) : string :=
  match s with
  | EmptyString => EmptyString
  | String c s' =>
      match demo_suffix s' with
      | EmptyString => if Ascii.eqb c "."%char then s else EmptyString
      | later => later
      end
  end.

Definition demo_stem (s : string) : string :=
  substring 0 (String.length s - String.length (demo_suffix s)) s.

Definition demo_world : Batch.World (frame := nat) :=
  {| Batch.env := demo_env;
     Batch.lower := fun s => s;
     Batch.stem := demo_stem;
     Batch.suffix := demo_suffix;
     Batch.ffmpeg := fun index =>
       {| returncode := if Nat.eqb index 2 then 1 else 0;
          stderr_utf8 := Some "Invalid data found when processing input"%string |};
     Batch.avi_size := fun _ => Some 4096;
     Batch.annotated := fun index =>
       match index with O => Some store_clip | _ => None end;
     Batch.temp_exists := fun _ => true;
     Batch.methods := fun index _ =>
       match index with
       | 1%nat => Returned false "Image conversion failed: cannot identify image file"
       | _ => Returned true "Image conversion completed."
       end |}.

Definition demo_batch (clip : bool) (output_ext : string)
    (files : list Batch.Path) : Batch.Window :=
  {| Batch.input_file := None; Batch.input_files := Some files;
     Batch.output_file := None; Batch.output_folder := None;
     Batch.current_extension := None;
     Batch.file_list := files; Batch.current_file_index := 0;
     Batch.temp_avi_file := None;
     Batch.multiple_files_checkbox := true;
     Batch.output_folder_checkbox := false;
     Batch.clip_checkbox := clip; Batch.output_combo := output_ext;
     Batch.convert_button := true; Batch.select_file_button := true;
     Batch.progress_bar := 0 |}.

Definition in_videos (name : string) : Batch.Path :=
  {| Batch.parent := "videos"; Batch.name := name |}.

(* ===================================================================== *)
(** * Part II: properties                                                 *)
(* ===================================================================== *)

(** Bounds on the frames of intervals that are given in full. *)
Ltac by_frames :=
  unfold proper, inverted, disjoint, enter_le, iv_enter, iv_exit; simpl; lia.

(** ** The extraction loop *)

Section ExtractionLoop.

Context {frame : Type}.

Implicit Types (cap : VideoCapture frame) (w : VideoWriter frame).
Implicit Types (frames : list frame) (log : list (event frame)).

Lemma skipn_nth_error frames n f :
  nth_error frames n = Some f -> skipn n frames = f :: skipn (S n) frames.
Proof.
  revert n; induction frames as [|a l IH]; intros [|n] H; simpl in *;
    try discriminate.
  - now inversion H.
  - now apply IH.
Qed.

Lemma frames_between_done frames current_frame exit_frame :
  exit_frame < current_frame -> frames_between frames current_frame exit_frame = [].
Proof.
  intros H. unfold frames_between.
  replace (Z.to_nat (exit_frame - current_frame + 1)) with 0%nat by lia.
  reflexivity.
Qed.

Lemma frames_between_step frames current_frame exit_frame f :
  1 <= current_frame <= exit_frame ->
  nth_error frames (Z.to_nat (current_frame - 1)) = Some f ->
  frames_between frames current_frame exit_frame
  = f :: frames_between frames (current_frame + 1) exit_frame.
Proof.
  intros H Hf. unfold frames_between.
  rewrite (skipn_nth_error _ _ _ Hf).
  replace (Z.to_nat (exit_frame - current_frame + 1))
    with (S (Z.to_nat (exit_frame - (current_frame + 1) + 1))) by lia.
  replace (Z.to_nat (current_frame + 1 - 1)) with (S (Z.to_nat (current_frame - 1)))
    by lia.
  reflexivity.
Qed.

Lemma frames_between_exhausted frames current_frame exit_frame :
  1 <= current_frame ->
  nth_error frames (Z.to_nat (current_frame - 1)) = None ->
  frames_between frames current_frame exit_frame = [].
Proof.
  intros H Hf. unfold frames_between.
  apply nth_error_None in Hf.
  rewrite skipn_all2 by exact Hf. now rewrite firstn_nil.
Qed.

Lemma frames_between_length frames enter_frame exit_frame :
  1 <= enter_frame -> enter_frame <= exit_frame + 1 ->
  exit_frame <= Z.of_nat (List.length frames) ->
  Z.of_nat (List.length (frames_between frames enter_frame exit_frame))
  = exit_frame - enter_frame + 1.
Proof.
  intros H1 H2 H3. unfold frames_between.
  rewrite length_firstn, length_skipn. lia.
Qed.

Lemma frames_between_nth frames enter_frame exit_frame k :
  1 <= enter_frame -> enter_frame <= k <= exit_frame ->
  nth_error (frames_between frames enter_frame exit_frame) (Z.to_nat (k - enter_frame))
  = nth_error frames (Z.to_nat (k - 1)).
Proof.
  intros H1 H2. unfold frames_between.
  rewrite nth_error_firstn.
  destruct (Nat.ltb_spec (Z.to_nat (k - enter_frame))
              (Z.to_nat (exit_frame - enter_frame + 1))) as [_|Hge]; [|lia].
  rewrite nth_error_skipn. f_equal. lia.
Qed.

Lemma frames_between_truncated frames enter_frame exit_frame :
  Z.of_nat (List.length frames) <= exit_frame ->
  frames_between frames enter_frame exit_frame
  = skipn (Z.to_nat (enter_frame - 1)) frames.
Proof.
  intros H. unfold frames_between.
  apply firstn_all2. rewrite length_skipn. lia.
Qed.

Lemma writer_write_path w f : writer_path (writer_write w f) = writer_path w.
Proof. unfold writer_write. now destruct (writer_opened w). Qed.

Lemma cap_read_some cap f cap' :
  cap_read cap = (Some f, cap') ->
  0 <= cap_pos cap
  /\ nth_error (cap_frames cap) (Z.to_nat (cap_pos cap)) = Some f
  /\ cap_frames cap' = cap_frames cap
  /\ cap_pos cap' = cap_pos cap + 1.
Proof.
  unfold cap_read. destruct (Z.ltb_spec (cap_pos cap) 0) as [Hneg|Hpos].
  - discriminate.
  - destruct (nth_error _ _) as [g|] eqn:E; intros H; inversion H; subst.
    simpl. auto.
Qed.

Lemma cap_read_none cap cap' :
  cap_read cap = (None, cap') ->
  cap' = cap
  /\ (cap_pos cap < 0 \/ nth_error (cap_frames cap) (Z.to_nat (cap_pos cap)) = None).
Proof.
  unfold cap_read. destruct (Z.ltb_spec (cap_pos cap) 0) as [Hneg|Hpos].
  - intros H; inversion H; subst; auto.
  - destruct (nth_error _ _) as [g|] eqn:E; intros H; inversion H; subst; auto.
Qed.

(** The loop copies the frames [current_frame .. exit_frame] that exist. *)
Lemma write_frames_spec cap w current_frame exit_frame log :
  1 <= current_frame -> cap_pos cap = current_frame - 1 ->
  exists cap',
    write_frames cap w current_frame exit_frame log
    = (cap',
       fold_left writer_write
         (frames_between (cap_frames cap) current_frame exit_frame) w,
       log ++ copy_events (writer_path w)
                (frames_between (cap_frames cap) current_frame exit_frame)
           ++ failed_read current_frame exit_frame (cap_frames cap))
    /\ cap_frames cap' = cap_frames cap.
Proof.
  funelim (write_frames cap w current_frame exit_frame log);
    intros Hone Hpos.
  - (* the loop condition is false *)
    exists cap. split; [|reflexivity].
    rewrite frames_between_done by lia. unfold failed_read.
    destruct (Z.leb_spec current_frame exit_frame); [lia|].
    simpl. now rewrite app_nil_r.
  - (* a frame was read *)
    destruct (cap_read_some _ _ _ Heq) as (_ & Hnth & Hfr & Hp).
    rewrite Hpos in Hnth.
    destruct (H ltac:(lia) ltac:(lia)) as (cap'' & Hrun & Hfr').
    exists cap''. split; [|congruence].
    rewrite Hrun, Hfr, writer_write_path.
    rewrite (frames_between_step (cap_frames cap) current_frame exit_frame f)
      by (auto; lia).
    simpl. rewrite <- !app_assoc. simpl.
    do 4 f_equal. unfold failed_read.
    assert (Hlen : (Z.to_nat (current_frame - 1) < List.length (cap_frames cap))%nat)
      by (apply nth_error_Some; congruence).
    destruct (Z.ltb_spec (Z.of_nat (List.length (cap_frames cap))) exit_frame);
      destruct (Z.leb_spec current_frame exit_frame);
      destruct (Z.leb_spec (current_frame + 1) exit_frame);
      simpl; try reflexivity; lia.
  - (* the read failed *)
    destruct (cap_read_none _ _ Heq) as (-> & [Hneg|Hnth]); [lia|].
    rewrite Hpos in Hnth.
    exists cap. split; [|reflexivity].
    rewrite frames_between_exhausted by auto. simpl.
    unfold failed_read. apply nth_error_None in Hnth.
    destruct (Z.ltb_spec (Z.of_nat (List.length (cap_frames cap))) exit_frame);
      destruct (Z.leb_spec current_frame exit_frame);
      simpl; try reflexivity; lia.
Qed.

End ExtractionLoop.

(** ** One interval, then all of them *)

Section Extraction.

Context {frame : Type}.
Variables (env : Env frame) (self : MainWindow) (video : Video frame).

Implicit Types (cap : VideoCapture frame) (x : interval).
Implicit Types (released : list (VideoWriter frame)) (log : list (event frame)).

Lemma fold_writer_write (frames : list frame) (w : VideoWriter frame) :
  fold_left writer_write frames w
  = if writer_opened w
    then {| writer_path := writer_path w; writer_fps := writer_fps w;
            writer_size := writer_size w; writer_opened := true;
            writer_frames := writer_frames w ++ frames |}
    else w.
Proof.
  revert w; induction frames as [|f frames IH]; intros w; simpl.
  - destruct w as [p r s [|] fs]; simpl; [now rewrite app_nil_r | reflexivity].
  - rewrite IH. unfold writer_write.
    destruct (writer_opened w) eqn:E; simpl; [|now rewrite E].
    now rewrite <- app_assoc.
Qed.

(** One pass of the [for] loop leaves the clip of its interval and makes
    the calls of its interval, whatever the read position was before. *)
Lemma clip_interval_spec cap released log x :
  cap_frames cap = video_frames video ->
  1 <= iv_enter x ->
  exists cap',
    clip_interval env self (default_fps (video_fps video))
      (video_width video, video_height video) (cap, released, log) x
    = (cap', released ++ [clip_of env self video x],
       log ++ events_of env self video x)
    /\ cap_frames cap' = video_frames video.
Proof.
  intros Hfr Hone. destruct x as [[enter_frame exit_frame] intruder].
  unfold iv_enter in Hone; simpl in Hone.
  unfold clip_interval.
  set (path := out_path env self intruder).
  set (w := new_writer env path _ _).
  destruct (write_frames_spec (cap_set cap (enter_frame - 1)) w
              enter_frame exit_frame
              (log ++ [WriterOpen path; CapSet (enter_frame - 1)]) Hone eq_refl)
    as (cap' & Hrun & Hfr').
  exists cap'. rewrite Hrun. simpl cap_frames in *. rewrite Hfr in *.
  split; [|exact Hfr'].
  f_equal; [f_equal|].
  - f_equal. rewrite fold_writer_write. unfold clip_of, w, new_writer; simpl.
    fold path. now destruct (writer_opens env path).
  - unfold events_of; simpl. fold path. now rewrite <- !app_assoc.
Qed.

Lemma clip_intervals_spec (intervals : list interval) cap released log :
  cap_frames cap = video_frames video ->
  Forall (fun x => 1 <= iv_enter x) intervals ->
  exists cap',
    fold_left (clip_interval env self (default_fps (video_fps video))
                 (video_width video, video_height video))
      intervals (cap, released, log)
    = (cap', released ++ map (clip_of env self video) intervals,
       log ++ flat_map (events_of env self video) intervals)
    /\ cap_frames cap' = video_frames video.
Proof.
  revert cap released log.
  induction intervals as [|x intervals IH]; intros cap released log Hfr Hall.
  - exists cap. simpl. now rewrite !app_nil_r.
  - inversion Hall as [|? ? Hx Hrest]; subst.
    destruct (clip_interval_spec cap released log x Hfr Hx) as (cap1 & Hstep & Hfr1).
    cbn [fold_left]. rewrite Hstep.
    destruct (IH cap1 (released ++ [clip_of env self video x])
                (log ++ events_of env self video x) Hfr1 Hrest)
      as (cap2 & Hrun & Hfr2).
    exists cap2. rewrite Hrun. split; [|exact Hfr2].
    cbn [map flat_map]. now rewrite <- !app_assoc.
Qed.

End Extraction.

(** ** Sorting by [enter_frame] *)

Lemma insert_by_enter_perm x l : Permutation (x :: l) (insert_by_enter x l).
Proof.
  induction l as [|y l IH]; simpl.
  - apply Permutation_refl.
  - destruct (iv_enter x <=? iv_enter y).
    + apply Permutation_refl.
    + eapply perm_trans; [apply perm_swap|]. now apply perm_skip.
Qed.

Lemma sort_by_enter_perm l : Permutation l (sort_by_enter l).
Proof.
  induction l as [|x l IH]; simpl.
  - constructor.
  - eapply perm_trans; [apply perm_skip, IH | apply insert_by_enter_perm].
Qed.

Lemma insert_by_enter_hd x y l :
  enter_le y x -> HdRel enter_le y l -> HdRel enter_le y (insert_by_enter x l).
Proof.
  intros Hyx Hl. destruct l as [|z l]; simpl.
  - now constructor.
  - inversion Hl; subst. destruct (iv_enter x <=? iv_enter z); now constructor.
Qed.

Lemma insert_by_enter_sorted x l :
  Sorted enter_le l -> Sorted enter_le (insert_by_enter x l).
Proof.
  induction 1 as [|y l Hs IH Hhd]; simpl.
  - repeat constructor.
  - destruct (Z.leb_spec (iv_enter x) (iv_enter y)) as [Hle|Hgt].
    + constructor; [now constructor | now constructor].
    + constructor; [exact IH|].
      apply insert_by_enter_hd; [unfold enter_le; lia | exact Hhd].
Qed.

Lemma sort_by_enter_sorted l : Sorted enter_le (sort_by_enter l).
Proof.
  induction l as [|x l IH]; simpl; [constructor | now apply insert_by_enter_sorted].
Qed.

(** Insertion never carries an element over one of the same key. *)
Lemma insert_by_enter_filter k x l :
  filter (same_enter k) (insert_by_enter x l) = filter (same_enter k) (x :: l).
Proof.
  induction l as [|y l IH]; simpl; [reflexivity|].
  destruct (Z.leb_spec (iv_enter x) (iv_enter y)) as [Hle|Hgt]; [reflexivity|].
  simpl in *. rewrite IH. unfold same_enter.
  destruct (Z.eqb_spec (iv_enter x) k), (Z.eqb_spec (iv_enter y) k);
    try reflexivity; lia.
Qed.

Lemma sort_by_enter_stable l : stable l (sort_by_enter l).
Proof.
  intros k. induction l as [|x l IH]; simpl; [reflexivity|].
  rewrite insert_by_enter_filter. simpl. now rewrite IH.
Qed.

Lemma filter_same_enter_above k l :
  Forall (fun z => k < iv_enter z) l -> filter (same_enter k) l = [].
Proof.
  induction 1 as [|z l Hz _ IH]; simpl; [reflexivity|].
  unfold same_enter at 1. destruct (Z.eqb_spec (iv_enter z) k); [lia | exact IH].
Qed.

Lemma enter_le_trans : Relations_1.Transitive enter_le.
Proof. intros a b c; unfold enter_le; lia. Qed.

Lemma sorted_cons_inv x l :
  Sorted enter_le (x :: l) ->
  Sorted enter_le l /\ Forall (fun z => iv_enter x <= iv_enter z) l.
Proof.
  intros H. apply (Sorted_StronglySorted enter_le_trans) in H.
  inversion H; subst. split; [now apply StronglySorted_Sorted | assumption].
Qed.

(** Two sorted lists that agree on every class of equal keys are equal. *)
Lemma sorted_stable_eq l1 :
  forall l2,
    Sorted enter_le l1 -> Sorted enter_le l2 ->
    (forall k, filter (same_enter k) l1 = filter (same_enter k) l2) ->
    l1 = l2.
Proof.
  induction l1 as [|x l1 IH]; intros [|y l2] H1 H2 Hf.
  - reflexivity.
  - specialize (Hf (iv_enter y)). simpl in Hf. unfold same_enter at 1 in Hf.
    rewrite Z.eqb_refl in Hf. discriminate.
  - specialize (Hf (iv_enter x)). simpl in Hf. unfold same_enter at 1 in Hf.
    rewrite Z.eqb_refl in Hf. discriminate.
  - destruct (sorted_cons_inv _ _ H1) as [Hs1 Ha1].
    destruct (sorted_cons_inv _ _ H2) as [Hs2 Ha2].
    assert (Hxy : iv_enter x = iv_enter y).
    { destruct (Z.lt_total (iv_enter x) (iv_enter y)) as [Hlt|[Heq|Hgt]];
        [exfalso | exact Heq | exfalso].
      - specialize (Hf (iv_enter x)).
        rewrite (filter_same_enter_above _ (y :: l2)) in Hf.
        + simpl in Hf. unfold same_enter at 1 in Hf.
          rewrite Z.eqb_refl in Hf. discriminate.
        + constructor; [exact Hlt|].
          eapply Forall_impl; [|exact Ha2]. simpl; intros; lia.
      - specialize (Hf (iv_enter y)).
        rewrite (filter_same_enter_above _ (x :: l1)) in Hf.
        + simpl in Hf. unfold same_enter at 1 in Hf.
          rewrite Z.eqb_refl in Hf. discriminate.
        + constructor; [lia|].
          eapply Forall_impl; [|exact Ha1]. simpl; intros; lia. }
    assert (Hhead := Hf (iv_enter x)). cbn [filter] in Hhead.
    unfold same_enter in Hhead.
    rewrite <- Hxy, !Z.eqb_refl in Hhead. inversion Hhead; subst y.
    f_equal. apply IH; try assumption.
    intros k. specialize (Hf k). simpl in Hf.
    destruct (same_enter k x); [now inversion Hf | exact Hf].
Qed.

(** The stable sort of a list is unique: any sorted list that keeps the
    insertion order among equal keys is the one [sort_by_enter] builds. *)
Lemma stable_sort_unique l l' :
  Sorted enter_le l' -> stable l l' -> l' = sort_by_enter l.
Proof.
  intros Hs Hst. apply sorted_stable_eq; [exact Hs | apply sort_by_enter_sorted |].
  intros k. rewrite (Hst k). symmetry. apply sort_by_enter_stable.
Qed.

Lemma stable_perm l l' : stable l l' -> Permutation l l'.
Proof.
  intros Hst.
  assert (E : sort_by_enter l = sort_by_enter l').
  { apply sorted_stable_eq; try apply sort_by_enter_sorted.
    intros k. rewrite (sort_by_enter_stable l k), (sort_by_enter_stable l' k).
    symmetry. apply Hst. }
  eapply perm_trans; [apply sort_by_enter_perm|].
  rewrite E. apply Permutation_sym, sort_by_enter_perm.
Qed.

(** ** The normaliser *)

Lemma video_to_avi_cases input_path avi_path process avi_size :
  video_to_avi input_path avi_path process avi_size
  = if negb (returncode process =? 0) then
      match stderr_utf8 process with
      | Some err => Some (false, "FFmpeg error: " ++ err)%string
      | None => None
      end
    else match avi_size with
         | None =>
             Some (false, "Output AVI file " ++ avi_path ++ " seems empty or invalid.")%string
         | Some st_size =>
             if st_size <? 1000
             then Some (false, "Output AVI file " ++ avi_path ++ " seems empty or invalid.")%string
             else Some (true, "Converted " ++ input_path ++ " to temporary AVI: " ++ avi_path)%string
         end.
Proof.
  unfold video_to_avi. destruct (negb _); [reflexivity|].
  destruct avi_size as [st_size|]; reflexivity.
Qed.

(** What [video_to_avi] returns, case by case.  It reports failure when
    ffmpeg exits with a nonzero status and its error stream is UTF-8, and,
    after a clean exit, when the output file does not exist or is smaller
    than 1000 bytes; it reports success exactly when the status is 0 and the
    file has 1000 bytes or more; it raises, reporting nothing, when the
    status is nonzero and the error stream is not UTF-8. *)
Lemma video_to_avi_reports input_path avi_path process avi_size :
  (reports_failure (video_to_avi input_path avi_path process avi_size)
   <-> (nonzero_status process /\ stderr_utf8 process <> None)
       \/ (returncode process = 0
           /\ (output_missing avi_size \/ output_too_small avi_size)))
  /\ (returncode process = 0 /\ (output_missing avi_size \/ output_too_small avi_size)
      -> video_to_avi input_path avi_path process avi_size
         = Some (false, "Output AVI file " ++ avi_path ++ " seems empty or invalid.")%string)
  /\ (forall err,
        nonzero_status process -> stderr_utf8 process = Some err ->
        video_to_avi input_path avi_path process avi_size
        = Some (false, "FFmpeg error: " ++ err)%string)
  /\ (reports_success (video_to_avi input_path avi_path process avi_size)
      <-> ~ (nonzero_status process \/ output_missing avi_size
             \/ output_too_small avi_size))
  /\ (video_to_avi input_path avi_path process avi_size = None
      <-> nonzero_status process /\ stderr_utf8 process = None).
Proof.
  rewrite video_to_avi_cases.
  unfold nonzero_status, output_missing, output_too_small,
    reports_failure, reports_success, not.
  destruct process as [code err]; simpl.
  destruct (Z.eqb_spec code 0) as [Hz|Hnz]; simpl;
    [destruct avi_size as [st_size|];
     [destruct (Z.ltb_spec st_size 1000) as [Hsmall|Hbig]|]
    |destruct err as [e|]];
    repeat split; intros;
    repeat match goal with
           | H : exists _, _ |- _ => destruct H
           | H : _ /\ _ |- _ => destruct H
           | H : _ \/ _ |- _ => destruct H
           | H : Some _ = Some _ |- _ => inversion H; clear H; subst
           end;
    try discriminate; try contradiction; try lia; try reflexivity;
    try congruence; eauto 8.
  all: try (right; split; [assumption|]; eauto; fail).
  all: try (left; split; [assumption | discriminate]).
  all: exfalso;
    match goal with H : _ -> False |- _ => apply H end;
    first [ left; assumption
          | right; left; reflexivity
          | right; right; eexists; split; [reflexivity | lia] ].
Qed.

(** C8 does not hold of the code.  When ffmpeg exits with status 1 and the
    bytes of its error stream are not UTF-8, line 43 raises while it builds
    the message of the failure: [video_to_avi] returns neither
    [(False, message)] nor [(True, message)]. *)
Theorem video_to_avi_raises_on_undecodable_stderr :
  nonzero_status failed_undecodable
  /\ video_to_avi "session.seq" "session_temp.avi" failed_undecodable None = None
  /\ ~ reports_failure
         (video_to_avi "session.seq" "session_temp.avi" failed_undecodable None)
  /\ ~ reports_success
         (video_to_avi "session.seq" "session_temp.avi" failed_undecodable None)
  /\ reports_failure
       (video_to_avi "session.seq" "session_temp.avi"
          {| returncode := 1; stderr_utf8 := Some "Invalid data"%string |} None).
Proof.
  split; [discriminate|]. split; [reflexivity|].
  split; [intros (m & Hm); discriminate|].
  split; [intros (m & Hm); discriminate|].
  eexists. reflexivity.
Qed.

(** ** Validation: the first loop *)

Lemma collect_intervals_acc items acc :
  collect_intervals items acc
  = match collect_intervals items [] with
    | inl failure => inl failure
    | inr l => inr (acc ++ l)
    end.
Proof.
  revert acc. induction items as [|[intruder data] items IH]; intros acc; simpl.
  - now rewrite app_nil_r.
  - destruct (enter data) as [enter_frame|]; [|reflexivity].
    destruct (exit data) as [exit_frame|]; [|reflexivity].
    destruct (exit_frame <? enter_frame); [reflexivity|].
    rewrite (IH (acc ++ _)), (IH [_]).
    destruct (collect_intervals items []); [reflexivity|].
    now rewrite <- app_assoc.
Qed.

Lemma collect_intervals_cons intruder data items :
  collect_intervals ((intruder, data) :: items) []
  = match enter data, exit data with
    | Some enter_frame, Some exit_frame =>
        if exit_frame <? enter_frame then inl (false, inverted_message intruder)
        else match collect_intervals items [] with
             | inl failure => inl failure
             | inr l => inr ((enter_frame, exit_frame, intruder) :: l)
             end
    | _, _ => inl (false, incomplete_message intruder)
    end.
Proof.
  simpl. destruct (enter data); [|reflexivity].
  destruct (exit data); [|reflexivity].
  destruct (_ <? _); [reflexivity|]. now rewrite collect_intervals_acc.
Qed.

Lemma non_inverted_cons item anns :
  non_inverted (item :: anns) -> non_inverted anns.
Proof.
  unfold non_inverted. simpl. destruct (interval_of item); [|auto].
  now inversion 1.
Qed.

Lemma non_inverted_head x anns :
  non_inverted (item_of x :: anns) -> proper x.
Proof.
  unfold non_inverted. destruct x as [[e f] label]. simpl.
  now inversion 1.
Qed.

(** A complete store without inverted intervals passes the first loop, which
    yields its intervals in insertion order. *)
Lemma collect_intervals_ok anns :
  complete anns -> non_inverted anns ->
  collect_intervals anns [] = inr (intervals_of anns).
Proof.
  induction anns as [|[intruder [e x]] anns IH]; intros Hc Hn; [reflexivity|].
  inversion Hc as [|? ? [He Hx] Hc']; subst. simpl in He, Hx.
  destruct e as [enter_frame|]; [|congruence].
  destruct x as [exit_frame|]; [|congruence].
  rewrite collect_intervals_cons. simpl.
  assert (Hle : enter_frame <= exit_frame)
    by exact (non_inverted_head (enter_frame, exit_frame, intruder) anns Hn).
  destruct (Z.ltb_spec exit_frame enter_frame); [lia|].
  rewrite IH; [reflexivity | assumption | eapply non_inverted_cons; eassumption].
Qed.

Lemma collect_intervals_inr anns l :
  collect_intervals anns [] = inr l ->
  l = intervals_of anns /\ complete anns /\ Forall proper l.
Proof.
  revert l. induction anns as [|[intruder [e x]] anns IH]; intros l.
  - simpl. intros H; inversion H; subst. repeat split; constructor.
  - rewrite collect_intervals_cons. simpl.
    destruct e as [enter_frame|]; [|discriminate].
    destruct x as [exit_frame|]; [|discriminate].
    destruct (Z.ltb_spec exit_frame enter_frame); [discriminate|].
    destruct (collect_intervals anns []) as [failure|l'] eqn:E; [discriminate|].
    intros H'; inversion H'; subst.
    destruct (IH l' eq_refl) as (-> & Hc & Hle).
    repeat split.
    + constructor; [|exact Hc]. split; simpl; discriminate.
    + constructor; [exact H | exact Hle].
Qed.

(** The first loop stops at the first entry that is incomplete or inverted. *)
Lemma collect_intervals_stops pre item post failure :
  complete pre -> non_inverted pre ->
  collect_intervals [item] [] = inl failure ->
  collect_intervals (pre ++ item :: post) [] = inl failure.
Proof.
  intros Hc Hn Hitem.
  induction pre as [|[intruder [e x]] pre IH].
  - destruct item as [intruder data]. simpl in *.
    destruct (enter data); [|exact Hitem].
    destruct (exit data); [|exact Hitem].
    destruct (_ <? _); [exact Hitem | discriminate].
  - inversion Hc as [|? ? [He Hx] Hc']; subst. simpl in He, Hx.
    destruct e as [enter_frame|]; [|congruence].
    destruct x as [exit_frame|]; [|congruence].
    assert (Hle : enter_frame <= exit_frame)
      by exact (non_inverted_head (enter_frame, exit_frame, intruder) _ Hn).
    rewrite <- app_comm_cons, collect_intervals_cons. simpl.
    destruct (Z.ltb_spec exit_frame enter_frame); [lia|].
    rewrite IH; [reflexivity | assumption | eapply non_inverted_cons; eassumption].
Qed.

Lemma collect_intervals_inverted pre x post :
  complete pre -> non_inverted pre -> inverted x ->
  collect_intervals (pre ++ item_of x :: post) []
  = inl (false, inverted_message (iv_label x)).
Proof.
  intros Hc Hn Hx. apply collect_intervals_stops; try assumption.
  unfold item_of, inverted in *. simpl.
  destruct (Z.ltb_spec (iv_exit x) (iv_enter x)); [reflexivity | lia].
Qed.

(** ** Validation: the overlap loop *)

Lemma first_overlap_none l : first_overlap l = None <-> separated l.
Proof.
  induction l as [|x [|y l] IH].
  - split; [constructor | reflexivity].
  - split; [constructor | reflexivity].
  - cbn [first_overlap].
    destruct (Z.leb_spec (iv_enter y) (iv_exit x)) as [Hle|Hgt].
    + split; [discriminate|]. intros H; inversion H; subst. lia.
    + rewrite IH. split.
      * intros H. now constructor.
      * intros H; now inversion H.
Qed.

(** The overlap loop reports the first adjacent pair that overlaps. *)
Lemma first_overlap_some l a b :
  first_overlap l = Some (a, b)
  <-> exists pre post,
        l = pre ++ a :: b :: post /\ separated (pre ++ [a]) /\ overlaps a b.
Proof.
  induction l as [|x [|y l] IH].
  - split; [discriminate|]. intros (pre & post & H & _). now destruct pre.
  - split; [discriminate|]. intros (pre & post & H & _).
    destruct pre as [|? [|? ?]]; discriminate.
  - cbn [first_overlap]. unfold overlaps in *.
    destruct (Z.leb_spec (iv_enter y) (iv_exit x)) as [Hle|Hgt].
    + split.
      * intros H; inversion H; subst. exists [], l. repeat split; [constructor | exact Hle].
      * intros (pre & post & H & Hsep & Hov).
        destruct pre as [|p pre].
        -- simpl in H. now inversion H.
        -- exfalso. simpl in H. inversion H; subst p.
           destruct pre as [|q pre]; simpl in *.
           ++ inversion H2; subst. inversion Hsep; subst. lia.
           ++ inversion H2; subst. inversion Hsep; subst. lia.
    + rewrite IH. split.
      * intros (pre & post & H & Hsep & Hov).
        exists (x :: pre), post. rewrite H. repeat split; [|exact Hov].
        destruct pre as [|p pre]; simpl in *.
        -- inversion H; subst. constructor; [lia | constructor].
        -- inversion H; subst. constructor; [lia | exact Hsep].
      * intros (pre & post & H & Hsep & Hov).
        destruct pre as [|p pre]; simpl in H.
        -- inversion H; subst. lia.
        -- inversion H; subst p. exists pre, post. repeat split; auto.
           destruct pre as [|q pre]; simpl in *.
           ++ constructor.
           ++ now inversion Hsep.
Qed.

(** ** Intervals that share no frame *)

Lemma disjoint_sym a b : disjoint a b -> disjoint b a.
Proof. unfold disjoint; tauto. Qed.

Lemma insert_by_enter_disjoint x l :
  Forall (disjoint x) l -> ForallOrdPairs disjoint l ->
  ForallOrdPairs disjoint (insert_by_enter x l).
Proof.
  induction l as [|y l IH]; intros Hx Hl; simpl.
  - repeat constructor.
  - inversion Hx as [|? ? Hxy Hxl]; subst.
    inversion Hl as [|? ? Hyl Hl']; subst.
    destruct (iv_enter x <=? iv_enter y).
    + now constructor.
    + constructor; [|now apply IH].
      eapply Permutation_Forall; [apply insert_by_enter_perm|].
      constructor; [now apply disjoint_sym | exact Hyl].
Qed.

Lemma sort_by_enter_disjoint l :
  ForallOrdPairs disjoint l -> ForallOrdPairs disjoint (sort_by_enter l).
Proof.
  induction 1 as [|x l Hx Hl IH]; simpl; [constructor|].
  apply insert_by_enter_disjoint; [|exact IH].
  eapply Permutation_Forall; [apply sort_by_enter_perm | exact Hx].
Qed.

(** In ascending order, intervals that share no frame leave a gap between
    neighbours. *)
Lemma sorted_disjoint_separated s :
  Sorted enter_le s -> ForallOrdPairs disjoint s ->
  Forall proper s ->
  separated s.
Proof.
  induction s as [|x [|y s] IH]; intros Hs Hd Hn; try constructor.
  - inversion Hs as [|? ? _ Hhd]; subst. inversion Hhd as [|? ? Hxy]; subst.
    inversion Hd as [|? ? Hx _]; subst. inversion Hx as [|? ? Hdxy _]; subst.
    inversion Hn as [|? ? _ Hn']; subst. inversion Hn' as [|? ? Hy _]; subst.
    unfold enter_le, disjoint, proper in *. lia.
  - apply IH.
    + now inversion Hs.
    + now inversion Hd.
    + now inversion Hn.
Qed.

(** ** Validation as a whole *)

Lemma validate_cases anns :
  validate anns
  = match collect_intervals anns [] with
    | inl failure => inl failure
    | inr intervals =>
        match first_overlap (sort_by_enter intervals) with
        | Some (a, b) => inl (false, overlap_message (iv_label a) (iv_label b))
        | None => inr (sort_by_enter intervals)
        end
    end.
Proof. reflexivity. Qed.

(** A complete store of proper intervals that share no frame is accepted,
    and what validation hands on is its stable sort. *)
Lemma validate_ok anns :
  complete anns -> non_inverted anns -> non_overlapping anns ->
  validate anns = inr (sort_by_enter (intervals_of anns)).
Proof.
  intros Hc Hn Ho. rewrite validate_cases, (collect_intervals_ok anns Hc Hn).
  assert (Hsep : separated (sort_by_enter (intervals_of anns))).
  { apply sorted_disjoint_separated.
    - apply sort_by_enter_sorted.
    - now apply sort_by_enter_disjoint.
    - eapply Permutation_Forall; [apply sort_by_enter_perm|].
      destruct (collect_intervals_inr anns _ (collect_intervals_ok anns Hc Hn))
        as (_ & _ & Hle). exact Hle. }
  apply first_overlap_none in Hsep. now rewrite Hsep.
Qed.

Lemma validate_inr anns s :
  validate anns = inr s ->
  s = sort_by_enter (intervals_of anns)
  /\ complete anns
  /\ separated s
  /\ Forall proper s.
Proof.
  rewrite validate_cases.
  destruct (collect_intervals anns []) as [failure|l] eqn:E; [discriminate|].
  destruct (collect_intervals_inr anns l E) as (-> & Hc & Hle).
  destruct (first_overlap _) as [[a b]|] eqn:Ho; [discriminate|].
  intros H; inversion H; subst. repeat split; try assumption.
  - now apply first_overlap_none.
  - eapply Permutation_Forall; [apply sort_by_enter_perm | exact Hle].
Qed.

(** ** The order of insertion *)

Lemma intervals_of_perm anns anns' :
  Permutation anns anns' -> Permutation (intervals_of anns) (intervals_of anns').
Proof.
  induction 1 as [|item l l' _ IH|a b l|l l' l'' _ IH1 _ IH2]; simpl.
  - constructor.
  - destruct (interval_of item); [now constructor | exact IH].
  - destruct (interval_of a), (interval_of b);
      try apply Permutation_refl. apply perm_swap.
  - eapply perm_trans; eassumption.
Qed.

Lemma disjoint_pairs_perm l l' :
  Permutation l l' -> ForallOrdPairs disjoint l -> ForallOrdPairs disjoint l'.
Proof.
  induction 1 as [|x l l' Hp IH|x y l|l l' l'' _ IH1 _ IH2]; intros H.
  - exact H.
  - inversion H as [|? ? Hx Hl]; subst. constructor; [|now apply IH].
    eapply Permutation_Forall; eassumption.
  - inversion H as [|? ? Hy Hl]; subst. inversion Hl as [|? ? Hx Hl']; subst.
    inversion Hy as [|? ? Hyx Hyl]; subst.
    constructor; [constructor; [now apply disjoint_sym | exact Hx]|].
    now constructor.
  - auto.
Qed.

Lemma filter_same_enter_perm k l l' :
  Permutation l l' ->
  Permutation (filter (same_enter k) l) (filter (same_enter k) l').
Proof.
  induction 1 as [|x l l' _ IH|x y l|l l' l'' _ IH1 _ IH2]; simpl.
  - constructor.
  - destruct (same_enter k x); [now constructor | exact IH].
  - destruct (same_enter k x), (same_enter k y);
      try apply Permutation_refl. apply perm_swap.
  - eapply perm_trans; eassumption.
Qed.

Lemma filter_same_enter_none k l :
  Forall (fun z => iv_enter z <> k) l -> filter (same_enter k) l = [].
Proof.
  induction 1 as [|z l Hz _ IH]; simpl; [reflexivity|].
  unfold same_enter at 1.
  destruct (Z.eqb_spec (iv_enter z) k); [contradiction | exact IH].
Qed.

(** Proper intervals that share no frame start at different frames, so no
    class of equal keys has two members. *)
Lemma disjoint_filter_short k l :
  Forall proper l -> ForallOrdPairs disjoint l ->
  (List.length (filter (same_enter k) l) <= 1)%nat.
Proof.
  intros Hp Hd. induction Hd as [|x l Hx Hd IH]; simpl; [lia|].
  inversion Hp as [|? ? Hpx Hpl]; subst. specialize (IH Hpl).
  unfold same_enter at 1. destruct (Z.eqb_spec (iv_enter x) k) as [Hk|Hk]; [|lia].
  rewrite filter_same_enter_none; [simpl; lia|].
  rewrite Forall_forall in *. intros z Hz.
  specialize (Hx z Hz). specialize (Hpl z Hz).
  unfold disjoint, proper in *. lia.
Qed.

Lemma perm_short_eq (l l' : list interval) :
  Permutation l l' -> (List.length l <= 1)%nat -> l = l'.
Proof.
  intros Hp Hlen. destruct l as [|x [|y l]]; simpl in Hlen; [| |lia].
  - now apply Permutation_nil in Hp.
  - now apply Permutation_length_1_inv in Hp.
Qed.

(** The order of insertion does not show in what validation hands on. *)
Lemma validate_order_independent anns anns' :
  Permutation anns anns' ->
  complete anns -> non_inverted anns -> non_overlapping anns ->
  validate anns' = validate anns.
Proof.
  intros Hperm Hc Hn Ho.
  assert (Hpi := intervals_of_perm anns anns' Hperm).
  assert (Hc' : complete anns') by (eapply Permutation_Forall; eassumption).
  assert (Hn' : non_inverted anns') by (eapply Permutation_Forall; eassumption).
  assert (Ho' : non_overlapping anns') by (eapply disjoint_pairs_perm; eassumption).
  rewrite (validate_ok anns Hc Hn Ho), (validate_ok anns' Hc' Hn' Ho').
  f_equal. apply sorted_stable_eq; try apply sort_by_enter_sorted.
  intros k. rewrite (sort_by_enter_stable _ k), (sort_by_enter_stable _ k).
  symmetry. apply perm_short_eq.
  - now apply filter_same_enter_perm.
  - now apply disjoint_filter_short.
Qed.

(** ** [clip_by_annotations] in three cases *)

Section Outcomes.

Context {frame : Type}.
Variables (env : Env frame) (self : MainWindow).

Lemma clip_by_annotations_invalid anns video_path failure :
  validate anns = inl failure ->
  clip_by_annotations env self anns video_path
  = {| result := failure; trace := []; clips := [] |}.
Proof.
  rewrite validate_cases. unfold clip_by_annotations.
  destruct (collect_intervals anns []) as [f|l]; [now intros H; inversion H|].
  destruct (first_overlap _) as [[a b]|]; [now intros H; inversion H|].
  discriminate.
Qed.

Lemma clip_by_annotations_unopenable anns video_path s :
  validate anns = inr s ->
  open_capture env video_path = None ->
  clip_by_annotations env self anns video_path
  = {| result := (false, unopenable_message video_path);
       trace := [CapOpen video_path]; clips := [] |}.
Proof.
  rewrite validate_cases. unfold clip_by_annotations.
  destruct (collect_intervals anns []) as [f|l]; [discriminate|].
  destruct (first_overlap _) as [[a b]|]; [discriminate|].
  intros _ ->. reflexivity.
Qed.

(** A validated store and a source that opens: every interval is extracted,
    in ascending order, and the call returns success. *)
Lemma clip_by_annotations_valid anns video_path s video :
  validate anns = inr s ->
  from_frame_one s ->
  open_capture env video_path = Some video ->
  clip_by_annotations env self anns video_path
  = {| result := (true, success_message self);
       trace := [CapOpen video_path]
                  ++ flat_map (events_of env self video) s ++ [CapRelease];
       clips := map (clip_of env self video) s |}.
Proof.
  rewrite validate_cases. unfold clip_by_annotations.
  destruct (collect_intervals anns []) as [f|l]; [discriminate|].
  destruct (first_overlap _) as [[a b]|]; [discriminate|].
  intros H Hone ->. inversion H; subst; clear H.
  destruct (clip_intervals_spec env self video (sort_by_enter l)
              {| cap_frames := video_frames video; cap_pos := 0 |}
              [] [CapOpen video_path] eq_refl Hone) as (cap' & Hrun & _).
  rewrite Hrun. reflexivity.
Qed.

End Outcomes.

(** ** The extractor on a validated store *)

Section ExtractorProperties.

Context {frame : Type}.
Variables (env : Env frame) (self : MainWindow).

Lemma failed_read_within (frames : list frame) enter_frame exit_frame :
  exit_frame <= Z.of_nat (List.length frames) ->
  failed_read enter_frame exit_frame frames = [].
Proof.
  intros H. unfold failed_read.
  destruct (Z.ltb_spec (Z.of_nat (List.length frames)) exit_frame); [lia|].
  now rewrite andb_false_r.
Qed.

Lemma failed_read_beyond (frames : list frame) enter_frame exit_frame :
  enter_frame <= exit_frame ->
  Z.of_nat (List.length frames) < exit_frame ->
  failed_read enter_frame exit_frame frames = [@CapRead frame false].
Proof.
  intros H1 H2. unfold failed_read.
  destruct (Z.ltb_spec (Z.of_nat (List.length frames)) exit_frame); [|lia].
  destruct (Z.leb_spec enter_frame exit_frame); [reflexivity | lia].
Qed.

Lemma clip_by_annotations_split anns video_path video s1 x s2 :
  validate anns = inr (s1 ++ x :: s2) ->
  from_frame_one (s1 ++ x :: s2) ->
  open_capture env video_path = Some video ->
  clip_by_annotations env self anns video_path
  = {| result := (true, success_message self);
       trace := [CapOpen video_path]
                  ++ flat_map (events_of env self video) s1
                  ++ events_of env self video x
                  ++ flat_map (events_of env self video) s2 ++ [CapRelease];
       clips := map (clip_of env self video) s1
                  ++ clip_of env self video x
                  :: map (clip_of env self video) s2 |}.
Proof.
  intros Hv Hone Hopen.
  rewrite (clip_by_annotations_valid env self anns video_path _ video Hv Hone Hopen).
  rewrite flat_map_app, map_app. cbn [flat_map map].
  now rewrite <- !app_assoc.
Qed.

(** C1. For every interval [x] of a validated store whose source opens and
    has at least [exit_frame] frames, [clip_by_annotations] opens the sink of
    [x], seeks to offset [enter_frame - 1], reads and writes one frame after
    the other and releases the sink; the frames written are exactly the
    frames [enter_frame .. exit_frame] of the source,
    [exit_frame - enter_frame + 1] of them, and they are what the clip of
    [x] holds when its sink could be opened. *)
Theorem clip_holds_marked_frames anns video_path video s1 x s2 :
  validate anns = inr (s1 ++ x :: s2) ->
  from_frame_one (s1 ++ x :: s2) ->
  open_capture env video_path = Some video ->
  iv_exit x <= Z.of_nat (List.length (video_frames video)) ->
  exists copied : list frame,
    Z.of_nat (List.length copied) = iv_exit x - iv_enter x + 1
    /\ (forall k, iv_enter x <= k <= iv_exit x ->
          nth_error copied (Z.to_nat (k - iv_enter x))
          = nth_error (video_frames video) (Z.to_nat (k - 1)))
    /\ trace (clip_by_annotations env self anns video_path)
       = [CapOpen video_path]
           ++ flat_map (events_of env self video) s1
           ++ interval_calls (out_path env self (iv_label x)) (iv_enter x) copied false
           ++ flat_map (events_of env self video) s2 ++ [CapRelease]
    /\ nth_error (clips (clip_by_annotations env self anns video_path))
         (List.length s1)
       = Some {| writer_path := out_path env self (iv_label x);
                 writer_fps := default_fps (video_fps video);
                 writer_size := (video_width video, video_height video);
                 writer_opened := writer_opens env (out_path env self (iv_label x));
                 writer_frames :=
                   if writer_opens env (out_path env self (iv_label x))
                   then copied else [] |}.
Proof.
  intros Hv Hone Hopen Hlen.
  destruct (validate_inr _ _ Hv) as (_ & _ & _ & Hproper).
  assert (Hx : proper x).
  { rewrite Forall_forall in Hproper. apply Hproper, in_elt. }
  assert (Hx1 : 1 <= iv_enter x).
  { unfold from_frame_one in Hone. rewrite Forall_forall in Hone.
    apply Hone, in_elt. }
  unfold proper in Hx.
  exists (frames_between (video_frames video) (iv_enter x) (iv_exit x)).
  rewrite (clip_by_annotations_split anns video_path video s1 x s2 Hv Hone Hopen).
  simpl trace. simpl clips. repeat split.
  - apply frames_between_length; lia.
  - intros k Hk. apply frames_between_nth; lia.
  - unfold events_of, interval_calls.
    rewrite failed_read_within by exact Hlen. reflexivity.
  - rewrite nth_error_app2 by (rewrite length_map; lia).
    rewrite length_map, Nat.sub_diag. reflexivity.
Qed.

(** C6. When the source has fewer than [exit_frame] frames, the loop of that
    interval ends at the failed read: its clip holds the frames from
    [enter_frame] to the last one of the source, the intervals after it are
    still processed, and [clip_by_annotations] returns success. *)
Theorem exhausted_source_truncates anns video_path video s1 x s2 :
  validate anns = inr (s1 ++ x :: s2) ->
  from_frame_one (s1 ++ x :: s2) ->
  open_capture env video_path = Some video ->
  Z.of_nat (List.length (video_frames video)) < iv_exit x ->
  result (clip_by_annotations env self anns video_path)
  = (true, success_message self)
  /\ trace (clip_by_annotations env self anns video_path)
     = [CapOpen video_path]
         ++ flat_map (events_of env self video) s1
         ++ interval_calls (out_path env self (iv_label x)) (iv_enter x)
              (skipn (Z.to_nat (iv_enter x - 1)) (video_frames video)) true
         ++ flat_map (events_of env self video) s2 ++ [CapRelease]
  /\ clips (clip_by_annotations env self anns video_path)
     = map (clip_of env self video) s1
         ++ {| writer_path := out_path env self (iv_label x);
               writer_fps := default_fps (video_fps video);
               writer_size := (video_width video, video_height video);
               writer_opened := writer_opens env (out_path env self (iv_label x));
               writer_frames :=
                 if writer_opens env (out_path env self (iv_label x))
                 then skipn (Z.to_nat (iv_enter x - 1)) (video_frames video)
                 else [] |}
         :: map (clip_of env self video) s2.
Proof.
  intros Hv Hone Hopen Hlen.
  destruct (validate_inr _ _ Hv) as (_ & _ & _ & Hproper).
  assert (Hx : proper x).
  { rewrite Forall_forall in Hproper. apply Hproper, in_elt. }
  unfold proper in Hx.
  rewrite (clip_by_annotations_split anns video_path video s1 x s2 Hv Hone Hopen).
  simpl result. simpl trace. simpl clips. repeat split.
  - unfold events_of, interval_calls.
    rewrite failed_read_beyond by lia.
    rewrite frames_between_truncated by lia. reflexivity.
  - unfold clip_of. rewrite frames_between_truncated by lia. reflexivity.
Qed.

(** C9, as the code has it.  On a validated store, only a source that cannot
    be opened makes [clip_by_annotations] fail.  A sink that cannot be opened
    is not reported: the frames of its interval are read and passed to
    [write] all the same, the call returns success with the usual message,
    the clip of that interval holds no frame, and every interval whose sink
    opens gets its frames. *)
Theorem sink_failure_is_silent anns video_path s :
  validate anns = inr s ->
  from_frame_one s ->
  (open_capture env video_path = None ->
   clip_by_annotations env self anns video_path
   = {| result := (false, unopenable_message video_path);
        trace := [CapOpen video_path]; clips := [] |})
  /\ (forall video,
        open_capture env video_path = Some video ->
        result (clip_by_annotations env self anns video_path)
        = (true, success_message self)
        /\ clips (clip_by_annotations env self anns video_path)
           = map (clip_of env self video) s
        /\ (forall x, In x s ->
              writer_opens env (out_path env self (iv_label x)) = false ->
              writer_opened (clip_of env self video x) = false
              /\ writer_frames (clip_of env self video x) = [])
        /\ (forall x, In x s ->
              writer_opens env (out_path env self (iv_label x)) = true ->
              writer_frames (clip_of env self video x)
              = frames_between (video_frames video) (iv_enter x) (iv_exit x))
        /\ trace (clip_by_annotations env self anns video_path)
           = [CapOpen video_path]
               ++ flat_map (events_of env self video) s ++ [CapRelease]
        /\ (forall s1 x s2,
              s = s1 ++ x :: s2 ->
              writer_opens env (out_path env self (iv_label x)) = false ->
              trace (clip_by_annotations env self anns video_path)
              = [CapOpen video_path]
                  ++ flat_map (events_of env self video) s1
                  ++ interval_calls (out_path env self (iv_label x)) (iv_enter x)
                       (frames_between (video_frames video) (iv_enter x) (iv_exit x))
                       (Z.of_nat (List.length (video_frames video)) <? iv_exit x)
                  ++ flat_map (events_of env self video) s2 ++ [CapRelease])).
Proof.
  intros Hv Hone. split.
  - intros Hopen. now apply clip_by_annotations_unopenable with (s := s).
  - intros video Hopen.
    rewrite (clip_by_annotations_valid env self anns video_path s video Hv Hone Hopen).
    cbn [result clips trace].
    split; [reflexivity|]. split; [reflexivity|]. split; [|split; [|split]].
    + intros x _ Hsink. unfold clip_of; simpl. now rewrite Hsink.
    + intros x _ Hsink. unfold clip_of; simpl. now rewrite Hsink.
    + reflexivity.
    + intros s1 x s2 -> _.
      destruct (validate_inr _ _ Hv) as (_ & _ & _ & Hproper).
      assert (Hx : proper x).
      { rewrite Forall_forall in Hproper. apply Hproper, in_elt. }
      unfold proper in Hx.
      rewrite flat_map_app. cbn [flat_map].
      rewrite <- !app_assoc. do 2 f_equal.
      unfold events_of, interval_calls, failed_read.
      destruct (Z.leb_spec (iv_enter x) (iv_exit x)) as [_|Hlt]; [|lia].
      cbn [andb]. now rewrite <- !app_assoc.
Qed.

(** C10. With no label at all there is nothing to validate and nothing to
    extract: a source that opens is opened and released at once, no clip is
    written, and [clip_by_annotations] returns success with its summary. *)
Theorem empty_store_succeeds video_path video :
  open_capture env video_path = Some video ->
  clip_by_annotations env self [] video_path
  = {| result := (true, success_message self);
       trace := [CapOpen video_path; CapRelease];
       clips := [] |}.
Proof.
  intros Hopen. unfold clip_by_annotations. simpl. now rewrite Hopen.
Qed.

End ExtractorProperties.

(** ** The validator *)

Section ValidatorProperties.

Context {frame : Type}.
Variables (env : Env frame) (self : MainWindow).

(** C2. On a complete store without inverted intervals, take the intervals
    in ascending order of [enter_frame] (equal keys in insertion order).  If
    [a], [b] is the first adjacent pair with
    [b.enter_frame <= a.exit_frame], equality included, the call fails with
    the overlap message that names [a] and [b], and the source is never
    opened. *)
Theorem overlap_rejected anns video_path pre a b post :
  complete anns -> non_inverted anns ->
  Sorted enter_le (pre ++ a :: b :: post) ->
  stable (intervals_of anns) (pre ++ a :: b :: post) ->
  separated (pre ++ [a]) ->
  iv_enter b <= iv_exit a ->
  clip_by_annotations env self anns video_path
  = {| result := (false, overlap_message (iv_label a) (iv_label b));
       trace := []; clips := [] |}.
Proof.
  intros Hc Hn Hs Hst Hsep Hov.
  apply clip_by_annotations_invalid.
  rewrite validate_cases, (collect_intervals_ok anns Hc Hn).
  rewrite <- (stable_sort_unique _ _ Hs Hst).
  assert (Hfirst : first_overlap (pre ++ a :: b :: post) = Some (a, b)).
  { apply first_overlap_some. exists pre, post. now repeat split. }
  now rewrite Hfirst.
Qed.

(** C4, as the code has it.  The first loop stops at the first label that is
    incomplete or inverted: when every label before [x] is complete and not
    inverted and [x] is inverted, the call fails with the message that names
    [x], whatever follows [x] in the store; nothing is sorted, no overlap is
    looked for and the source is never opened. *)
Theorem first_inverted_rejected anns video_path pre x post :
  anns = pre ++ item_of x :: post ->
  complete pre -> non_inverted pre ->
  inverted x ->
  collect_intervals anns [] = inl (false, inverted_message (iv_label x))
  /\ clip_by_annotations env self anns video_path
     = {| result := (false, inverted_message (iv_label x));
          trace := []; clips := [] |}.
Proof.
  intros -> Hc Hn Hx.
  assert (E := collect_intervals_inverted pre x post Hc Hn Hx).
  split; [exact E|].
  unfold clip_by_annotations. now rewrite E.
Qed.

(** C7. A complete store of proper intervals that share no frame is
    accepted; the list that validation hands to the extractor holds the same
    intervals in ascending order of [enter_frame], equal keys in insertion
    order; it is the same list in whatever order the labels were inserted;
    and the clips are written in that order. *)
Theorem validated_in_ascending_order anns :
  complete anns -> non_inverted anns -> non_overlapping anns ->
  exists s,
    validate anns = inr s
    /\ Sorted enter_le s
    /\ Permutation (intervals_of anns) s
    /\ stable (intervals_of anns) s
    /\ (forall anns', Permutation anns anns' -> validate anns' = inr s)
    /\ (forall video_path video,
          from_frame_one s ->
          open_capture env video_path = Some video ->
          clips (clip_by_annotations env self anns video_path)
          = map (clip_of env self video) s).
Proof.
  intros Hc Hn Ho. exists (sort_by_enter (intervals_of anns)).
  assert (Hv := validate_ok anns Hc Hn Ho).
  split; [exact Hv|].
  split; [apply sort_by_enter_sorted|].
  split; [apply sort_by_enter_perm|].
  split; [apply sort_by_enter_stable|].
  split.
  - intros anns' Hperm.
    now rewrite (validate_order_independent anns anns' Hperm Hc Hn Ho).
  - intros video_path video Hone Hopen.
    now rewrite (clip_by_annotations_valid env self anns video_path _ video
                   Hv Hone Hopen).
Qed.

End ValidatorProperties.

(** ** Frames and milliseconds *)




(** No such bound holds of every rate and every frame: binary64 rounds
    the product up to a whole number at 1999 fps and frame 19990000000004,
    and there the code gives the frame itself. *)
Lemma round_trip_exact_at_a_large_frame :
  frame_to_ms_spec 19990000000004 (Float64.to_Q (Float64.of_int 1999))
  = 10000000000002
  /\ ms_to_frame 10000000000002 (Float64.of_int 1999) = Some 19990000000004.
Proof. split; vm_compute; reflexivity. Qed.

(** The code itself, in binary64: position 0 is frame 1 at every finite
    rate. *)
Lemma ms_to_frame_zero fps :
  Float64.is_finite fps = true -> ms_to_frame 0 fps = Some 1.
Proof.
  destruct fps as [s|s| |s m e]; try discriminate; intros _.
  - destruct s; reflexivity.
  - destruct s; reflexivity.
Qed.

(** The code at 25 fps: 40 ms, where the specification puts frame 2, is
    frame 1. *)
Lemma ms_to_frame_40_at_25 : ms_to_frame 40 (Float64.of_int 25) = Some 1.
Proof. vm_compute. reflexivity. Qed.

(** Binary64 is not exact arithmetic: at 100 fps, 290 ms is frame 28 for the
    code ([0.29 * 100.0] is [28.999999999999996]), where 290 times 100 is
    29 times 1000. *)
Lemma ms_to_frame_inexact :
  ms_to_frame 290 (Float64.of_int 100) = Some 28 /\ 290 * 100 = 29 * 1000.
Proof. split; vm_compute; reflexivity. Qed.

(** The dialog puts frame 1 at [int(1000 / fps)] ms, 40 ms at 25 fps, and
    the code reads 40 ms back as frame 1 and 80 ms as frame 2: its positions
    are those of [frame], not of [frame - 1].  Binary64 loses a frame now
    and then: 1160 ms, 29 times 40, is frame 28. *)
Lemma code_positions_at_25 :
  initial_position (Float64.of_int 25) = Some 40
  /\ ms_to_frame 80 (Float64.of_int 25) = Some 2
  /\ ms_to_frame 1160 (Float64.of_int 25) = Some 28.
Proof. repeat split; vm_compute; reflexivity. Qed.


(** ** The annotation dictionary *)

Lemma dict_get_set d k v k' :
  dict_get (dict_set d k v) k'
  = if String.eqb k k' then Some v else dict_get d k'.
Proof.
  induction d as [|[k0 v0] d IH]; simpl.
  - reflexivity.
  - destruct (String.eqb_spec k0 k) as [->|Hk0]; simpl.
    + now destruct (String.eqb k k').
    + rewrite IH. destruct (String.eqb_spec k0 k') as [->|Hk0'];
        [|reflexivity].
      destruct (String.eqb_spec k k'); [congruence | reflexivity].
Qed.

Lemma enter_of_set_enter anns k frame label :
  dict_mem anns k = true ->
  enter_of (set_enter anns k frame) label
  = if String.eqb k label then Some frame else enter_of anns label.
Proof.
  unfold dict_mem, set_enter, enter_of.
  destruct (dict_get anns k) as [m|] eqn:E; [intros _|discriminate].
  rewrite dict_get_set. now destruct (String.eqb k label).
Qed.

Lemma exit_of_set_enter anns k frame label :
  exit_of (set_enter anns k frame) label = exit_of anns label.
Proof.
  unfold set_enter, exit_of.
  destruct (dict_get anns k) as [m|] eqn:E; [|reflexivity].
  rewrite dict_get_set.
  destruct (String.eqb_spec k label) as [<-|]; [|reflexivity].
  now rewrite E.
Qed.

Lemma exit_of_set_exit anns k frame label :
  dict_mem anns k = true ->
  exit_of (set_exit anns k frame) label
  = if String.eqb k label then Some frame else exit_of anns label.
Proof.
  unfold dict_mem, set_exit, exit_of.
  destruct (dict_get anns k) as [m|] eqn:E; [intros _|discriminate].
  rewrite dict_get_set. now destruct (String.eqb k label).
Qed.

Lemma enter_of_set_exit anns k frame label :
  enter_of (set_exit anns k frame) label = enter_of anns label.
Proof.
  unfold set_exit, enter_of.
  destruct (dict_get anns k) as [m|] eqn:E; [|reflexivity].
  rewrite dict_get_set.
  destruct (String.eqb_spec k label) as [<-|]; [|reflexivity].
  now rewrite E.
Qed.

(** A fresh label comes with no mark. *)
Lemma marks_of_fresh anns k label :
  dict_mem anns k = false ->
  enter_of (dict_set anns k no_marks) label = enter_of anns label
  /\ exit_of (dict_set anns k no_marks) label = exit_of anns label
  /\ dict_mem (dict_set anns k no_marks) k = true.
Proof.
  unfold dict_mem, enter_of, exit_of. intros Hk.
  rewrite !dict_get_set, String.eqb_refl.
  destruct (String.eqb_spec k label) as [<-|]; [|auto].
  destruct (dict_get anns k); [discriminate | auto].
Qed.

Lemma has_enter_spec anns label :
  has_enter anns label = true <-> exists v, enter_of anns label = Some v.
Proof.
  unfold has_enter, enter_of.
  destruct (dict_get anns label) as [[[e|] x]|]; simpl; split;
    try discriminate; eauto; intros [v Hv]; discriminate.
Qed.

Lemma has_exit_spec anns label :
  has_exit anns label = true <-> exists v, exit_of anns label = Some v.
Proof.
  unfold has_exit, exit_of.
  destruct (dict_get anns label) as [[e [x|]]|]; simpl; split;
    try discriminate; eauto; intros [v Hv]; discriminate.
Qed.

Lemma marked_is_member anns label v :
  enter_of anns label = Some v \/ exit_of anns label = Some v ->
  dict_mem anns label = true.
Proof.
  unfold enter_of, exit_of, dict_mem.
  destruct (dict_get anns label); [reflexivity | intros [H|H]; discriminate].
Qed.

(** The store after the branch that records a mark: the label is entered
    first when it is new. *)
Lemma with_label_marks anns k label :
  let anns1 := if negb (dict_mem anns k) then dict_set anns k no_marks else anns in
  enter_of anns1 label = enter_of anns label
  /\ exit_of anns1 label = exit_of anns label
  /\ dict_mem anns1 k = true.
Proof.
  simpl. destruct (dict_mem anns k) eqn:Hk; simpl; [auto|].
  now apply marks_of_fresh.
Qed.

Lemma mark_enter_keeps anns fps current_position answer anns' shown label v :
  mark_enter anns fps current_position answer = Some (anns', shown) ->
  (enter_of anns label = Some v -> enter_of anns' label = Some v)
  /\ (exit_of anns label = Some v -> exit_of anns' label = Some v).
Proof.
  unfold mark_enter.
  destruct (position_frame current_position fps) as [frame|]; [|discriminate].
  destruct answer as [intruder_name ok].
  destruct (accepted intruder_name ok); [|intros H; inversion H; subst; auto].
  destruct (dict_mem anns intruder_name && has_enter anns intruder_name) eqn:Hdup;
    intros H; inversion H; subst; clear H; [auto|].
  destruct (with_label_marks anns intruder_name label) as (He & Hx & Hm).
  split; intros Hv.
  - rewrite enter_of_set_enter by exact Hm.
    destruct (String.eqb_spec intruder_name label) as [->|Hne].
    + exfalso.
      assert (dict_mem anns label = true) by (eapply marked_is_member; eauto).
      assert (has_enter anns label = true) by (apply has_enter_spec; eauto).
      rewrite H, H0 in Hdup. discriminate.
    + now rewrite He.
  - rewrite exit_of_set_enter. now rewrite Hx.
Qed.

Lemma mark_exit_keeps anns fps current_position picked typed anns' shown label v :
  mark_exit anns fps current_position picked typed = Some (anns', shown) ->
  (enter_of anns label = Some v -> enter_of anns' label = Some v)
  /\ (exit_of anns label = Some v -> exit_of anns' label = Some v).
Proof.
  unfold mark_exit.
  destruct (position_frame current_position fps) as [frame|]; [|discriminate].
  destruct (exit_answer anns picked typed) as [intruder_name ok].
  destruct (accepted intruder_name ok); [|intros H; inversion H; subst; auto].
  destruct (dict_mem anns intruder_name && has_exit anns intruder_name) eqn:Hdup;
    intros H; inversion H; subst; clear H; [auto|].
  destruct (with_label_marks anns intruder_name label) as (He & Hx & Hm).
  split; intros Hv.
  - rewrite enter_of_set_exit. now rewrite He.
  - rewrite exit_of_set_exit by exact Hm.
    destruct (String.eqb_spec intruder_name label) as [->|Hne].
    + exfalso.
      assert (dict_mem anns label = true) by (eapply marked_is_member; eauto).
      assert (has_exit anns label = true) by (apply has_exit_spec; eauto).
      rewrite H, H0 in Hdup. discriminate.
    + now rewrite Hx.
Qed.

(** No action of the operator changes or removes a mark that is set. *)
Lemma perform_keeps fps anns a anns' shown label v :
  perform fps anns a = Some (anns', shown) ->
  (enter_of anns label = Some v -> enter_of anns' label = Some v)
  /\ (exit_of anns label = Some v -> exit_of anns' label = Some v).
Proof.
  destruct a; simpl; [apply mark_enter_keeps | apply mark_exit_keeps].
Qed.

Lemma accepted_label label : label <> EmptyString -> accepted label true = true.
Proof.
  intros H. unfold accepted. simpl.
  destruct (String.eqb_spec label EmptyString); [contradiction | reflexivity].
Qed.

Lemma mark_enter_duplicate anns fps current_position frame label v :
  position_frame current_position fps = Some frame ->
  label <> EmptyString ->
  enter_of anns label = Some v ->
  mark_enter anns fps current_position (label, true)
  = Some (anns, Some (Warning "Warning"
                        ("Enter already marked for " ++ label ++ "."))).
Proof.
  intros Hframe Hlabel Hv. unfold mark_enter.
  rewrite Hframe, (accepted_label _ Hlabel).
  assert (Hm : dict_mem anns label = true) by (eapply marked_is_member; eauto).
  assert (He : has_enter anns label = true) by (apply has_enter_spec; eauto).
  now rewrite Hm, He.
Qed.

Lemma mark_exit_duplicate anns fps current_position frame label v picked typed :
  position_frame current_position fps = Some frame ->
  label <> EmptyString ->
  exit_of anns label = Some v ->
  exit_answer anns picked typed = (label, true) ->
  mark_exit anns fps current_position picked typed
  = Some (anns, Some (Warning "Warning"
                        ("Exit already marked for " ++ label ++ "."))).
Proof.
  intros Hframe Hlabel Hv Hanswer. unfold mark_exit.
  rewrite Hframe, Hanswer, (accepted_label _ Hlabel).
  assert (Hm : dict_mem anns label = true) by (eapply marked_is_member; eauto).
  assert (He : has_exit anns label = true) by (apply has_exit_spec; eauto).
  now rewrite Hm, He.
Qed.

(** C5. When the frame of the current position can be computed and the
    operator confirms a label that already has its enter mark, [mark_enter]
    shows the warning "Enter already marked" and leaves the store as it was;
    [mark_exit] does the same for a label that already has its exit mark; and
    no call of either ever changes an enter or exit mark that is set. *)
Theorem duplicate_mark_rejected anns fps current_position frame label v :
  position_frame current_position fps = Some frame ->
  label <> EmptyString ->
  (enter_of anns label = Some v ->
   mark_enter anns fps current_position (label, true)
   = Some (anns, Some (Warning "Warning"
                         ("Enter already marked for " ++ label ++ "."))))
  /\ (exit_of anns label = Some v ->
      forall picked typed,
        exit_answer anns picked typed = (label, true) ->
        mark_exit anns fps current_position picked typed
        = Some (anns, Some (Warning "Warning"
                              ("Exit already marked for " ++ label ++ "."))))
  /\ (forall a anns' shown,
        perform fps anns a = Some (anns', shown) ->
        (enter_of anns label = Some v -> enter_of anns' label = Some v)
        /\ (exit_of anns label = Some v -> exit_of anns' label = Some v)).
Proof.
  intros Hframe Hlabel. split; [|split].
  - intros Hv. now apply mark_enter_duplicate with (frame := frame) (v := v).
  - intros Hv picked typed Hanswer.
    now apply mark_exit_duplicate with (frame := frame) (v := v).
  - intros a anns' shown Hstep.
    exact (perform_keeps fps anns a anns' shown label v Hstep).
Qed.

(** The sequence of the specification: a first [mark_enter] on a label
    without enter mark records the frame, and a second one on the same label
    is turned down and leaves that frame in place. *)
Lemma mark_enter_twice anns fps p1 frame1 p2 frame2 label :
  position_frame p1 fps = Some frame1 ->
  position_frame p2 fps = Some frame2 ->
  label <> EmptyString ->
  enter_of anns label = None ->
  exists anns1,
    mark_enter anns fps p1 (label, true)
    = Some (anns1,
            Some (Information "Annotation"
                    ("Marked enter for " ++ label ++ " at frame "
                       ++ str_of_int (from_one frame1) ++ ".")))
    /\ enter_of anns1 label = Some (from_one frame1)
    /\ mark_enter anns1 fps p2 (label, true)
       = Some (anns1,
               Some (Warning "Warning"
                       ("Enter already marked for " ++ label ++ "."))).
Proof.
  intros H1 H2 Hlabel Hnone.
  assert (Hfresh : dict_mem anns label && has_enter anns label = false).
  { destruct (has_enter anns label) eqn:E; [|apply andb_false_r].
    apply has_enter_spec in E. destruct E as [v Hv]. congruence. }
  destruct (with_label_marks anns label label) as (_ & _ & Hm).
  eexists. split; [|split].
  - unfold mark_enter. rewrite H1, (accepted_label _ Hlabel), Hfresh. reflexivity.
  - rewrite enter_of_set_enter by exact Hm. now rewrite String.eqb_refl.
  - apply mark_enter_duplicate with (frame := frame2) (v := from_one frame1);
      try assumption.
    rewrite enter_of_set_enter by exact Hm. now rewrite String.eqb_refl.
Qed.

(** ** The stores the dialog can hold *)

Lemma from_one_ge frame : 1 <= from_one frame.
Proof. unfold from_one. destruct (Z.ltb_spec 0 frame); lia. Qed.

Lemma dict_mem_keys d k : dict_mem d k = true <-> In k (map fst d).
Proof.
  unfold dict_mem. induction d as [|[k0 v0] d IH]; simpl.
  - split; [discriminate | tauto].
  - destruct (String.eqb_spec k0 k) as [->|Hne].
    + split; auto.
    + rewrite IH. split; [auto | intros [H|H]; [contradiction | exact H]].
Qed.

Lemma dict_set_keys d k v :
  map fst (dict_set d k v)
  = if dict_mem d k then map fst d else map fst d ++ [k].
Proof.
  unfold dict_mem. induction d as [|[k0 v0] d IH]; simpl; [reflexivity|].
  destruct (String.eqb_spec k0 k) as [->|Hne]; simpl; [reflexivity|].
  rewrite IH. now destruct (dict_get d k).
Qed.

Lemma dict_set_forall (P : string * marks -> Prop) d k v :
  Forall P d -> P (k, v) -> Forall P (dict_set d k v).
Proof.
  intros Hd Hk. induction Hd as [|[k0 v0] d H0 Hd IH]; simpl.
  - now repeat constructor.
  - destruct (String.eqb_spec k0 k) as [->|Hne]; now constructor.
Qed.

Lemma dict_get_forall (P : string * marks -> Prop) d k m :
  Forall P d -> dict_get d k = Some m -> P (k, m).
Proof.
  induction 1 as [|[k0 v0] d H0 Hd IH]; simpl; [discriminate|].
  destruct (String.eqb_spec k0 k) as [->|Hne]; [|exact IH].
  now intros H; inversion H; subst.
Qed.

Lemma dict_set_well_formed d k v :
  well_formed d -> k <> EmptyString -> marks_from_one v ->
  well_formed (dict_set d k v).
Proof.
  intros [Hnd Hall] Hk Hv. split.
  - rewrite dict_set_keys. destruct (dict_mem d k) eqn:Hm; [exact Hnd|].
    apply NoDup_app; [exact Hnd | repeat constructor; auto |].
    intros x Hx [<-|[]]. apply dict_mem_keys in Hx. congruence.
  - apply dict_set_forall; [exact Hall | now split].
Qed.

Lemma no_marks_from_one : marks_from_one no_marks.
Proof. split; intros v H; discriminate. Qed.

(** Recording a mark keeps the store well formed. *)
Lemma record_mark_well_formed anns k frame :
  well_formed anns -> k <> EmptyString ->
  well_formed
    (set_enter (if negb (dict_mem anns k) then dict_set anns k no_marks else anns)
       k (from_one frame))
  /\ well_formed
       (set_exit (if negb (dict_mem anns k) then dict_set anns k no_marks else anns)
          k (from_one frame)).
Proof.
  intros Hwf Hk.
  assert (Hwf1 : well_formed
                   (if negb (dict_mem anns k) then dict_set anns k no_marks else anns)).
  { destruct (dict_mem anns k); simpl; [exact Hwf|].
    apply dict_set_well_formed; auto using no_marks_from_one. }
  set (anns1 := if negb (dict_mem anns k) then _ else _) in *.
  assert (Hge := from_one_ge frame).
  unfold set_enter, set_exit.
  destruct (dict_get anns1 k) as [m|] eqn:E; [|now split].
  destruct (dict_get_forall _ anns1 k m (proj2 Hwf1) E) as (_ & Hen & Hex).
  simpl in Hen, Hex.
  split; apply dict_set_well_formed; try assumption; split; simpl;
    intros v Hv; try (inversion Hv; subst; assumption); auto.
Qed.

Lemma perform_well_formed fps anns a anns' shown :
  well_formed anns -> perform fps anns a = Some (anns', shown) ->
  well_formed anns'.
Proof.
  intros Hwf. destruct a as [p [name ok]|p picked typed]; simpl.
  - unfold mark_enter.
    destruct (position_frame p fps) as [frame|]; [|discriminate].
    unfold accepted. destruct ok; simpl; [|now intros H; inversion H; subst].
    destruct (String.eqb_spec name EmptyString) as [->|Hk]; simpl;
      [now intros H; inversion H; subst|].
    destruct (dict_mem anns name && has_enter anns name);
      intros H; inversion H; subst; [exact Hwf|].
    now apply record_mark_well_formed.
  - unfold mark_exit.
    destruct (position_frame p fps) as [frame|]; [|discriminate].
    destruct (exit_answer anns picked typed) as [name ok].
    unfold accepted. destruct ok; simpl; [|now intros H; inversion H; subst].
    destruct (String.eqb_spec name EmptyString) as [->|Hk]; simpl;
      [now intros H; inversion H; subst|].
    destruct (dict_mem anns name && has_exit anns name);
      intros H; inversion H; subst; [exact Hwf|].
    now apply record_mark_well_formed.
Qed.

(** Whatever the operator does, the dialog holds distinct, non-empty labels
    and frame numbers counted from 1. *)
Lemma reachable_well_formed fps anns : reachable fps anns -> well_formed anns.
Proof.
  induction 1 as [|anns a anns' shown _ IH Hstep].
  - split; constructor.
  - exact (perform_well_formed fps anns a anns' shown IH Hstep).
Qed.

Lemma well_formed_from_one anns :
  well_formed anns -> from_frame_one (intervals_of anns).
Proof.
  intros [_ Hall]. unfold from_frame_one.
  induction Hall as [|[k [e x]] anns (_ & Hen & _) _ IH]; simpl; [constructor|].
  unfold interval_of; simpl in *.
  destruct e as [enter_frame|]; [|exact IH].
  destruct x as [exit_frame|]; [|exact IH].
  constructor; [|exact IH]. unfold iv_enter; simpl. now apply Hen.
Qed.

(** The intervals that validation hands to the extractor start at frame 1 or
    later whenever the store comes from the dialog. *)
Lemma reachable_from_frame_one fps anns s :
  reachable fps anns -> validate anns = inr s -> from_frame_one s.
Proof.
  intros Hr Hv. destruct (validate_inr anns s Hv) as (-> & _).
  unfold from_frame_one.
  eapply Permutation_Forall; [apply sort_by_enter_perm|].
  apply well_formed_from_one. eapply reachable_well_formed; eassumption.
Qed.

(** ** The properties on the session of the examples *)

(** C1 on the session of the examples: the interval (10, 30, X), first of
    the two intervals of [store_clip]. *)
Lemma clip_holds_marked_frames_witness :
  validate store_clip = inr ([] ++ (10, 30, "X"%string) :: [(40, 60, "W"%string)])
  /\ open_capture demo_env "session.avi" = Some demo_video
  /\ exists copied : list nat,
       Z.of_nat (List.length copied) = 30 - 10 + 1
       /\ (forall k, 10 <= k <= 30 ->
             nth_error copied (Z.to_nat (k - 10))
             = nth_error (video_frames demo_video) (Z.to_nat (k - 1)))
       /\ trace (clip_by_annotations demo_env demo_window store_clip "session.avi")
          = [CapOpen "session.avi"]
              ++ flat_map (events_of demo_env demo_window demo_video) []
              ++ interval_calls "clips/session_Xintruder.mp4" 10 copied false
              ++ flat_map (events_of demo_env demo_window demo_video)
                   [(40, 60, "W"%string)]
              ++ [CapRelease]
       /\ nth_error
            (clips (clip_by_annotations demo_env demo_window store_clip "session.avi"))
            0
          = Some {| writer_path := "clips/session_Xintruder.mp4";
                    writer_fps := Float64.of_int 25;
                    writer_size := (640, 480);
                    writer_opened := true;
                    writer_frames := copied |}.
Proof.
  split; [reflexivity|]. split; [reflexivity|].
  apply (clip_holds_marked_frames demo_env demo_window store_clip "session.avi"
           demo_video [] (10, 30, "X"%string) [(40, 60, "W"%string)]).
  - reflexivity.
  - repeat constructor; by_frames.
  - reflexivity.
  - by_frames.
Defined.

(** The clip of the example of the specification: 100 frames at 25 fps and
    the interval (10, 30, X) give the 21 frames 10 to 30. *)
Lemma clip_of_spec_example :
  clips (clip_by_annotations demo_env demo_window [item_of (10, 30, "X"%string)]
           "session.avi")
  = [{| writer_path := "clips/session_Xintruder.mp4";
        writer_fps := Float64.of_int 25;
        writer_size := (640, 480);
        writer_opened := true;
        writer_frames := seq 10 21 |}].
Proof. vm_compute. reflexivity. Qed.

(** C6 on the session of the examples: the interval (95, 120, Y) on the
    source of 100 frames; its clip holds the frames 95 to 100. *)
Lemma exhausted_source_truncates_witness :
  validate store_beyond = inr ([(10, 30, "X"%string)] ++ (95, 120, "Y"%string) :: [])
  /\ Z.of_nat (List.length (video_frames demo_video)) < 120
  /\ result (clip_by_annotations demo_env demo_window store_beyond "session.avi")
     = (true, success_message demo_window)
  /\ trace (clip_by_annotations demo_env demo_window store_beyond "session.avi")
     = [CapOpen "session.avi"]
         ++ flat_map (events_of demo_env demo_window demo_video)
              [(10, 30, "X"%string)]
         ++ interval_calls "clips/session_Yintruder.mp4" 95 [95; 96; 97; 98; 99; 100]%nat
              true
         ++ flat_map (events_of demo_env demo_window demo_video) []
         ++ [CapRelease]
  /\ clips (clip_by_annotations demo_env demo_window store_beyond "session.avi")
     = map (clip_of demo_env demo_window demo_video) [(10, 30, "X"%string)]
         ++ {| writer_path := "clips/session_Yintruder.mp4";
               writer_fps := Float64.of_int 25;
               writer_size := (640, 480);
               writer_opened := true;
               writer_frames := [95; 96; 97; 98; 99; 100]%nat |}
         :: map (clip_of demo_env demo_window demo_video) [].
Proof.
  split; [reflexivity|]. split; [simpl; lia|].
  apply (exhausted_source_truncates demo_env demo_window store_beyond "session.avi"
           demo_video [(10, 30, "X"%string)] (95, 120, "Y"%string) []).
  - reflexivity.
  - repeat constructor; by_frames.
  - reflexivity.
  - by_frames.
Defined.

(** C9 fails on the session of the examples: the sink of [Z] cannot be
    opened, the clip of [Z] holds nothing although its four frames were read
    and passed to [write], and the call returns the plain success message,
    the one it returns when every sink opens. *)
Lemma sink_failure_unreported :
  validate store_sink = inr [(5, 8, "Z"%string); (10, 30, "X"%string)]
  /\ writer_opens demo_env (out_path demo_env demo_window "Z") = false
  /\ clip_by_annotations demo_env demo_window store_sink "session.avi"
     = {| result := (true, "Successfully clipped intruders for file session.seq."%string);
          trace :=
            [CapOpen "session.avi"]
              ++ interval_calls "clips/session_Zintruder.mp4" 5 [5; 6; 7; 8]%nat false
              ++ interval_calls "clips/session_Xintruder.mp4" 10 (seq 10 21) false
              ++ [CapRelease];
          clips :=
            [{| writer_path := "clips/session_Zintruder.mp4";
                writer_fps := Float64.of_int 25;
                writer_size := (640, 480);
                writer_opened := false;
                writer_frames := [] |};
             {| writer_path := "clips/session_Xintruder.mp4";
                writer_fps := Float64.of_int 25;
                writer_size := (640, 480);
                writer_opened := true;
                writer_frames := seq 10 21 |}] |}
  /\ result (clip_by_annotations demo_env demo_window store_sink "session.avi")
     = result (clip_by_annotations
                 {| open_capture := open_capture demo_env;
                    writer_opens := fun _ => true;
                    path_join := path_join demo_env |}
                 demo_window store_sink "session.avi")
  /\ ~ sink_failure_reported.
Proof.
  split; [vm_compute; reflexivity|].
  split; [vm_compute; reflexivity|].
  split; [vm_compute; reflexivity|].
  split; [vm_compute; reflexivity|].
  intros claim.
  apply (claim demo_env demo_window store_sink "session.avi"%string
           [(5, 8, "Z"%string); (10, 30, "X"%string)] (5, 8, "Z"%string)).
  - vm_compute. reflexivity.
  - left. reflexivity.
  - vm_compute. reflexivity.
  - vm_compute. reflexivity.
Qed.

(** The amended C9 on the session of the examples: the sink of [Z] cannot
    be opened, and its frames 5 to 8 are read and passed to [write]. *)
Lemma sink_failure_is_silent_witness :
  validate store_sink = inr [(5, 8, "Z"%string); (10, 30, "X"%string)]
  /\ from_frame_one [(5, 8, "Z"%string); (10, 30, "X"%string)]
  /\ open_capture demo_env "session.avi" = Some demo_video
  /\ writer_opens demo_env (out_path demo_env demo_window "Z") = false
  /\ result (clip_by_annotations demo_env demo_window store_sink "session.avi")
     = (true, success_message demo_window)
  /\ writer_frames (clip_of demo_env demo_window demo_video (5, 8, "Z"%string)) = []
  /\ trace (clip_by_annotations demo_env demo_window store_sink "session.avi")
     = [CapOpen "session.avi"]
         ++ flat_map (events_of demo_env demo_window demo_video) []
         ++ interval_calls (out_path demo_env demo_window "Z") 5
              (frames_between (video_frames demo_video) 5 8)
              (Z.of_nat (List.length (video_frames demo_video)) <? 8)
         ++ flat_map (events_of demo_env demo_window demo_video)
              [(10, 30, "X"%string)]
         ++ [CapRelease].
Proof.
  assert (Hv : validate store_sink = inr [(5, 8, "Z"%string); (10, 30, "X"%string)])
    by reflexivity.
  assert (Hone : from_frame_one [(5, 8, "Z"%string); (10, 30, "X"%string)])
    by (repeat constructor; by_frames).
  assert (Hopen : open_capture demo_env "session.avi" = Some demo_video)
    by reflexivity.
  assert (Hsink : writer_opens demo_env (out_path demo_env demo_window "Z") = false)
    by reflexivity.
  destruct (proj2 (sink_failure_is_silent demo_env demo_window store_sink
                     "session.avi" [(5, 8, "Z"%string); (10, 30, "X"%string)]
                     Hv Hone) demo_video Hopen)
    as (Hresult & _ & Hclosed & _ & _ & Hcalls).
  split; [exact Hv|]. split; [exact Hone|]. split; [exact Hopen|].
  split; [exact Hsink|]. split; [exact Hresult|]. split.
  - exact (proj2 (Hclosed (5, 8, "Z"%string) (or_introl eq_refl) Hsink)).
  - exact (Hcalls [] (5, 8, "Z"%string) [(10, 30, "X"%string)] eq_refl Hsink).
Defined.

(** C10 on the session of the examples. *)
Lemma empty_store_succeeds_witness :
  open_capture demo_env "session.avi" = Some demo_video
  /\ clip_by_annotations demo_env demo_window [] "session.avi"
     = {| result := (true, "Successfully clipped intruders for file session.seq."%string);
          trace := [CapOpen "session.avi"; CapRelease];
          clips := [] |}.
Proof.
  split; [reflexivity|].
  apply (empty_store_succeeds demo_env demo_window "session.avi" demo_video).
  reflexivity.
Defined.

(** An empty store does not help a source that cannot be opened. *)
Lemma empty_store_unopenable :
  clip_by_annotations demo_env demo_window [] "missing.avi"
  = {| result := (false, "Could not open missing.avi for clipping."%string);
       trace := [CapOpen "missing.avi"]; clips := [] |}.
Proof. vm_compute. reflexivity. Qed.

(** C2 on the example of the specification: (15, 20, B) and (20, 25, C)
    touch at frame 20. *)
Lemma overlap_rejected_witness :
  complete store_touching
  /\ non_inverted store_touching
  /\ stable (intervals_of store_touching)
       ([(1, 10, "A"%string)] ++ (15, 20, "B"%string) :: (20, 25, "C"%string) :: [])
  /\ separated ([(1, 10, "A"%string)] ++ [(15, 20, "B"%string)])
  /\ clip_by_annotations demo_env demo_window store_touching "session.avi"
     = {| result := (false, overlap_message "B" "C");
          trace := []; clips := [] |}.
Proof.
  assert (Hc : complete store_touching)
    by (repeat constructor; discriminate).
  assert (Hn : non_inverted store_touching)
    by (repeat constructor; by_frames).
  assert (Hst : stable (intervals_of store_touching)
                  ([(1, 10, "A"%string)] ++ (15, 20, "B"%string)
                     :: (20, 25, "C"%string) :: []))
    by (intros k; reflexivity).
  assert (Hsep : separated ([(1, 10, "A"%string)] ++ [(15, 20, "B"%string)]))
    by (repeat constructor).
  do 4 (split; [assumption|]).
  apply (overlap_rejected demo_env demo_window store_touching "session.avi"
           [(1, 10, "A"%string)] (15, 20, "B"%string) (20, 25, "C"%string) []
           Hc Hn); try assumption.
  - repeat constructor; by_frames.
  - by_frames.
Defined.

(** The message of the example of the specification. *)
Lemma touching_example_message :
  result (clip_by_annotations demo_env demo_window store_touching "session.avi")
  = (false, "Overlapping intruder intervals found between 'B' and 'C'."%string).
Proof. vm_compute. reflexivity. Qed.

(** Equal keys stay in insertion order, and the overlap message names them
    in that order. *)
Lemma ties_keep_insertion_order :
  sort_by_enter (intervals_of store_ties)
  = [(1, 2, "Q"%string); (5, 9, "P"%string); (5, 6, "R"%string)]
  /\ result (clip_by_annotations demo_env demo_window store_ties "session.avi")
     = (false, "Overlapping intruder intervals found between 'P' and 'R'."%string).
Proof. split; vm_compute; reflexivity. Qed.

(** C4 fails on a store with two inverted intervals: [Y] is inverted, and
    the message names [X], the inverted interval inserted before it.  It
    fails, too, when an incomplete label comes first: the message is the one
    for the incomplete label. *)
Lemma second_inverted_not_named :
  In (item_of (50, 40, "Y"%string)) store_two_inverted
  /\ inverted (50, 40, "Y"%string)
  /\ result (clip_by_annotations demo_env demo_window store_two_inverted "session.avi")
     = (false, "Exit frame occurs before enter frame for intruder 'X'."%string)
  /\ result (clip_by_annotations demo_env demo_window store_two_inverted "session.avi")
     <> (false, inverted_message "Y")
  /\ In (item_of (30, 10, "Y"%string)) store_incomplete_first
  /\ result (clip_by_annotations demo_env demo_window store_incomplete_first
               "session.avi")
     = (false, "Incomplete annotation for intruder 'I'."%string)
  /\ ~ every_inverted_named.
Proof.
  assert (Hin : In (item_of (50, 40, "Y"%string)) store_two_inverted)
    by (right; left; reflexivity).
  assert (Hinv : inverted (50, 40, "Y"%string))
    by (by_frames).
  split; [exact Hin|]. split; [exact Hinv|].
  split; [vm_compute; reflexivity|].
  split; [vm_compute; intros H; discriminate|].
  split; [right; left; reflexivity|].
  split; [vm_compute; reflexivity|].
  intros claim. specialize (claim store_two_inverted _ Hin Hinv).
  vm_compute in claim. discriminate.
Qed.

(** The amended C4 on a store whose inverted interval comes second and is
    followed by an interval that overlaps the first. *)
Lemma first_inverted_rejected_witness :
  store_inverted_last
  = [item_of (1, 10, "A"%string)] ++ item_of (30, 10, "Y"%string)
      :: [item_of (5, 8, "B"%string)]
  /\ complete [item_of (1, 10, "A"%string)]
  /\ non_inverted [item_of (1, 10, "A"%string)]
  /\ inverted (30, 10, "Y"%string)
  /\ collect_intervals store_inverted_last [] = inl (false, inverted_message "Y")
  /\ clip_by_annotations demo_env demo_window store_inverted_last "session.avi"
     = {| result := (false, inverted_message "Y"); trace := []; clips := [] |}.
Proof.
  assert (Hc : complete [item_of (1, 10, "A"%string)])
    by (repeat constructor; discriminate).
  assert (Hn : non_inverted [item_of (1, 10, "A"%string)])
    by (repeat constructor; by_frames).
  assert (Hx : inverted (30, 10, "Y"%string))
    by (by_frames).
  split; [reflexivity|]. repeat (split; [assumption|]).
  exact (first_inverted_rejected demo_env demo_window store_inverted_last
           "session.avi" [item_of (1, 10, "A"%string)] (30, 10, "Y"%string)
           [item_of (5, 8, "B"%string)] eq_refl Hc Hn Hx).
Defined.

(** C7 on the example of the specification, inserted out of order. *)
Lemma validated_in_ascending_order_witness :
  complete store_unordered
  /\ non_inverted store_unordered
  /\ non_overlapping store_unordered
  /\ exists s,
       validate store_unordered = inr s
       /\ Sorted enter_le s
       /\ Permutation (intervals_of store_unordered) s
       /\ stable (intervals_of store_unordered) s
       /\ (forall anns', Permutation store_unordered anns' -> validate anns' = inr s)
       /\ (forall video_path video,
             from_frame_one s ->
             open_capture demo_env video_path = Some video ->
             clips (clip_by_annotations demo_env demo_window store_unordered
                      video_path)
             = map (clip_of demo_env demo_window video) s).
Proof.
  assert (Hc : complete store_unordered)
    by (repeat constructor; discriminate).
  assert (Hn : non_inverted store_unordered)
    by (repeat constructor; by_frames).
  assert (Ho : non_overlapping store_unordered)
    by (repeat constructor; by_frames).
  repeat (split; [assumption|]).
  exact (validated_in_ascending_order demo_env demo_window store_unordered
           Hc Hn Ho).
Defined.

(** The example of the specification: [B] was inserted before [A], and
    validation hands on [A] then [B]. *)
Lemma unordered_example_sorted :
  validate store_unordered = inr [(1, 10, "A"%string); (15, 20, "B"%string)].
Proof. vm_compute. reflexivity. Qed.


(** C5 on a store where [A] has both marks, at 400 ms and 25 fps. *)
Lemma duplicate_mark_rejected_witness :
  position_frame 400 (Float64.of_int 25) = Some 10
  /\ enter_of store_marked "A" = Some 3
  /\ exit_of store_marked "A" = Some 9
  /\ mark_enter store_marked (Float64.of_int 25) 400 ("A"%string, true)
     = Some (store_marked,
             Some (Warning "Warning" "Enter already marked for A."))
  /\ mark_exit store_marked (Float64.of_int 25) 400 (0%nat, true) ("A"%string, true)
     = Some (store_marked,
             Some (Warning "Warning" "Exit already marked for A.")).
Proof.
  assert (Hframe : position_frame 400 (Float64.of_int 25) = Some 10)
    by reflexivity.
  assert (Hlabel : "A"%string <> EmptyString) by discriminate.
  split; [exact Hframe|]. do 2 (split; [reflexivity|]). split.
  - exact (proj1 (duplicate_mark_rejected store_marked (Float64.of_int 25) 400 10
                    "A" 3 Hframe Hlabel) eq_refl).
  - exact (proj1 (proj2 (duplicate_mark_rejected store_marked (Float64.of_int 25)
                           400 10 "A" 9 Hframe Hlabel))
             eq_refl (0%nat, true) ("A"%string, true) eq_refl).
Defined.

(** ** The format table and the dispatch of conversions *)

(** Case analysis on every test of a chain of [if]s, innermost condition
    first. *)
Ltac by_branches :=
  repeat match goal with
         | |- context [if ?c then _ else _] =>
             lazymatch c with
             | context [if _ then _ else _] => fail
             | _ => destruct c
             end
         end.

(** Every conversion type that [determine_conversion_type] can return is one
    of the twelve names, and [run] calls the method that carries the name:
    the two chains of string comparisons agree. *)
Theorem conversion_type_reaches_its_method input_ext output_ext :
  In (determine_conversion_type input_ext output_ext,
      run_branch (determine_conversion_type input_ext output_ext))
    named_converters.
Proof.
  unfold determine_conversion_type. by_branches; vm_compute; tauto.
Qed.

Lemma formats_get_in table ext formats :
  formats_get table ext = Some formats -> In (ext, formats) table.
Proof.
  induction table as [|[k v] table IH]; simpl; [discriminate|].
  destruct (String.eqb_spec k ext) as [->|_].
  - intros H; inversion H; subst. now left.
  - intros H. right. now apply IH.
Qed.

Lemma offered_formats_checked :
  Forall (fun row =>
            Forall (fun output_ext =>
                      run_branch (determine_conversion_type (fst row) output_ext)
                      <> call_generic_conversion)
              (snd row))
    OUTPUT_FORMATS.
Proof. repeat constructor; vm_compute; discriminate. Qed.

(** For an extension of the table, no format offered in the combo box ends
    in the generic fallback: each pair has a converter of its own. *)
Theorem offered_formats_have_converters current_extension formats output_ext :
  formats_get OUTPUT_FORMATS current_extension = Some formats ->
  In output_ext (update_output_options current_extension) ->
  run_branch (determine_conversion_type current_extension output_ext)
  <> call_generic_conversion.
Proof.
  intros Hget Hin. unfold update_output_options in Hin. rewrite Hget in Hin.
  apply formats_get_in in Hget.
  assert (H := offered_formats_checked). rewrite Forall_forall in H.
  specialize (H _ Hget). simpl in H. rewrite Forall_forall in H. now apply H.
Qed.

Lemma offered_formats_have_converters_witness :
  formats_get OUTPUT_FORMATS ".pdf" = Some [".jpg"; ".png"; ".docx"; ".txt"]%string
  /\ In ".png"%string (update_output_options ".pdf")
  /\ run_branch (determine_conversion_type ".pdf" ".png") <> call_generic_conversion.
Proof.
  assert (Hget : formats_get OUTPUT_FORMATS ".pdf"
                 = Some [".jpg"; ".png"; ".docx"; ".txt"]%string) by reflexivity.
  assert (Hin : In ".png"%string (update_output_options ".pdf"))
    by (right; left; reflexivity).
  split; [exact Hget|]. split; [exact Hin|].
  exact (offered_formats_have_converters ".pdf" _ ".png" Hget Hin).
Defined.

(** For an extension that the table does not list the combo box offers
    [.mp4] alone, and the conversion is the generic one, except for [.gif],
    which counts as a video. *)
Theorem unlisted_extension_is_generic current_extension :
  formats_get OUTPUT_FORMATS current_extension = None ->
  update_output_options current_extension = [".mp4"%string]
  /\ run_branch (determine_conversion_type current_extension ".mp4")
     = if String.eqb current_extension ".gif"
       then call_ffmpeg_video_convert else call_generic_conversion.
Proof.
  intros Hget. split.
  - unfold update_output_options. now rewrite Hget.
  - unfold OUTPUT_FORMATS in Hget. simpl in Hget.
    unfold determine_conversion_type, ext_in, video_exts, image_exts. simpl.
    repeat match type of Hget with
           | context [String.eqb ?a current_extension] =>
               destruct (String.eqb_spec a current_extension) as [<-|?];
               [discriminate|]
           end.
    repeat match goal with
           | |- context [String.eqb current_extension ?a] =>
               destruct (String.eqb_spec current_extension a);
               [subst; try congruence|]
           end; try reflexivity.
Qed.

Lemma unlisted_extension_is_generic_witness :
  formats_get OUTPUT_FORMATS ".wav" = None
  /\ update_output_options ".wav" = [".mp4"%string]
  /\ run_branch (determine_conversion_type ".wav" ".mp4") = call_generic_conversion.
Proof.
  assert (Hget : formats_get OUTPUT_FORMATS ".wav" = None) by reflexivity.
  split; [exact Hget|].
  exact (unlisted_extension_is_generic ".wav" Hget).
Defined.

(** ** The output folder option *)

Lemma folder_handle_invariant g ev :
  choose_enabled g = box_checked g ->
  (forall folder, chosen_folder g = Some folder ->
                  box_checked g = true /\ folder <> EmptyString) ->
  choose_enabled (folder_handle g ev) = box_checked (folder_handle g ev)
  /\ (forall folder, chosen_folder (folder_handle g ev) = Some folder ->
                     box_checked (folder_handle g ev) = true
                     /\ folder <> EmptyString).
Proof.
  destruct g as [chosen checked enabled]; simpl. intros -> Hch.
  destruct ev as [state|folder]; simpl.
  - unfold toggle_output_folder_button; simpl.
    destruct (state =? Checked) eqn:E; simpl; split; auto.
    + intros f Hf. split; [reflexivity | now apply (Hch f)].
    + discriminate.
  - destruct checked; simpl; [|split; [reflexivity | exact Hch]].
    unfold select_output_folder; simpl.
    destruct (String.eqb_spec folder EmptyString) as [->|Hne]; simpl;
      [split; [reflexivity | exact Hch]|].
    split; [reflexivity|]. intros f Hf. inversion Hf; subst. now split.
Qed.

Lemma folder_after_invariant events :
  choose_enabled (folder_after events) = box_checked (folder_after events)
  /\ (forall folder, chosen_folder (folder_after events) = Some folder ->
                     box_checked (folder_after events) = true
                     /\ folder <> EmptyString).
Proof.
  unfold folder_after.
  induction events as [|ev events IH] using rev_ind; simpl.
  - split; [reflexivity | discriminate].
  - rewrite fold_left_app. simpl.
    destruct IH as [Hen Hch]. now apply folder_handle_invariant.
Qed.

(** Whatever the operator has done to the box and the button, a folder is
    remembered only while the box is checked: the clips go to the remembered
    folder when there is one and beside the output file when there is none,
    and the test of the box in [clip_by_annotations] never decides. *)
Theorem remembered_folder_is_the_destination {frame : Type} (env : Env frame)
    (self : MainWindow) events intruder :
  output_folder self = chosen_folder (folder_after events) ->
  output_folder_checked self = box_checked (folder_after events) ->
  out_path env self intruder
  = path_join env
      (match output_folder self with
       | Some folder => folder
       | None => output_file_parent self
       end)
      (output_name self intruder).
Proof.
  intros Hf Hc. unfold out_path.
  destruct (output_folder self) as [folder|] eqn:E; [|reflexivity].
  destruct (folder_after_invariant events) as [_ Hinv].
  destruct (Hinv folder (eq_sym Hf)) as [Hbox Hne].
  rewrite Hc, Hbox.
  destruct (String.eqb_spec folder EmptyString); [contradiction | reflexivity].
Qed.

(** Unchecking the box forgets the folder, and checking it again does not
    bring the folder back: until a folder is chosen anew, none is
    remembered. *)
Theorem unchecking_forgets_the_folder events state states :
  state <> Checked ->
  chosen_folder (folder_after (events ++ BoxSet state :: map BoxSet states)) = None.
Proof.
  intros Hstate. unfold folder_after. rewrite fold_left_app. simpl.
  set (g := fold_left folder_handle events folder_option_start).
  assert (H0 : chosen_folder
                 (toggle_output_folder_button
                    {| chosen_folder := chosen_folder g;
                       box_checked := state =? Checked;
                       choose_enabled := choose_enabled g |} state) = None).
  { unfold toggle_output_folder_button.
    destruct (Z.eqb_spec state Checked); [contradiction | reflexivity]. }
  revert H0. generalize (toggle_output_folder_button
                           {| chosen_folder := chosen_folder g;
                              box_checked := state =? Checked;
                              choose_enabled := choose_enabled g |} state).
  induction states as [|s states IH]; intros g0 H0; simpl; [exact H0|].
  apply IH. unfold toggle_output_folder_button.
  destruct (s =? Checked); simpl; [exact H0 | reflexivity].
Qed.

(** ** Sessions of the annotation dialog *)

Lemma dict_get_nodup anns k m :
  NoDup (map fst anns) -> In (k, m) anns -> dict_get anns k = Some m.
Proof.
  induction anns as [|[k0 v0] anns IH]; simpl; [tauto|].
  intros Hnd [Hin|Hin]; inversion Hnd as [|? ? Hnotin Hnd']; subst.
  - inversion Hin; subst. now rewrite String.eqb_refl.
  - destruct (String.eqb_spec k0 k) as [->|Hne]; [|now apply IH].
    exfalso. apply Hnotin. change k with (fst (k, m)). now apply in_map.
Qed.

(** The labels of the drop-down are those with an enter mark and no exit
    mark. *)
Lemma available_open anns label :
  In label (available anns)
  <-> exists v, In (label, {| enter := Some v; exit := None |}) anns.
Proof.
  unfold available. rewrite in_map_iff. split.
  - intros ([k [e x]] & Hk & Hin). simpl in Hk. subst k.
    apply filter_In in Hin. destruct Hin as [Hin Hopen].
    destruct e as [v|]; [|discriminate]. destruct x; [discriminate|].
    now exists v.
  - intros (v & Hin). exists (label, {| enter := Some v; exit := None |}).
    split; [reflexivity|]. apply filter_In. now split.
Qed.

Lemma filter_other_label label names :
  ~ In label names ->
  filter (fun name => negb (String.eqb name label)) names = names.
Proof.
  induction names as [|n names IH]; simpl; [reflexivity|].
  intros Hn. destruct (String.eqb_spec n label) as [->|Hne]; simpl.
  - exfalso. apply Hn. now left.
  - f_equal. apply IH. tauto.
Qed.

Lemma available_keys anns label :
  In label (available anns) -> In label (map fst anns).
Proof.
  intros H. apply available_open in H. destruct H as (v & Hin).
  change label with (fst (label, {| enter := Some v; exit := None |})).
  now apply in_map.
Qed.

Lemma available_cons k m anns :
  available ((k, m) :: anns)
  = match enter m, exit m with
    | Some _, None => k :: available anns
    | _, _ => available anns
    end.
Proof. unfold available. simpl. destruct (enter m), (exit m); reflexivity. Qed.

(** Once its exit is marked a label leaves the drop-down; the other labels
    keep their place. *)
Lemma available_after_exit anns label m frame :
  NoDup (map fst anns) ->
  dict_get anns label = Some m ->
  available (dict_set anns label {| enter := enter m; exit := Some frame |})
  = filter (fun name => negb (String.eqb name label)) (available anns).
Proof.
  induction anns as [|[k0 m0] anns IH]; simpl; [discriminate|].
  intros Hnd Hget. inversion Hnd as [|? ? Hnotin Hnd']; subst.
  destruct (String.eqb_spec k0 label) as [->|Hne].
  - inversion Hget; subst; clear Hget. rewrite !available_cons. simpl.
    assert (Hrest : filter (fun name => negb (String.eqb name label))
                      (available anns) = available anns).
    { apply filter_other_label. intros Hin. apply Hnotin.
      now apply available_keys. }
    destruct (enter m); [destruct (exit m)|]; simpl;
      rewrite ?String.eqb_refl; simpl; now rewrite Hrest.
  - rewrite !available_cons, (IH Hnd' Hget).
    destruct (enter m0); [destruct (exit m0)|]; simpl; try reflexivity.
    destruct (String.eqb_spec k0 label); [contradiction | reflexivity].
Qed.

(** A label picked in the drop-down always gets its exit mark: the call
    shows the frame, never the warning; the enter mark stays, and the label
    leaves the drop-down. *)
Theorem picked_exit_is_recorded anns fps current_position frame index label typed :
  well_formed anns ->
  position_frame current_position fps = Some frame ->
  nth_error (available anns) index = Some label ->
  exists anns',
    mark_exit anns fps current_position (index, true) typed
    = Some (anns',
            Some (Information "Annotation"
                    ("Marked exit for " ++ label ++ " at frame "
                       ++ str_of_int (from_one frame) ++ ".")))
    /\ exit_of anns' label = Some (from_one frame)
    /\ enter_of anns' label = enter_of anns label
    /\ available anns'
       = filter (fun name => negb (String.eqb name label)) (available anns).
Proof.
  intros [Hnd Hall] Hframe Hnth.
  assert (Hin : In label (available anns)) by (eapply nth_error_In; eassumption).
  destruct (proj1 (available_open anns label) Hin) as (v & Hentry).
  assert (Hget := dict_get_nodup anns label _ Hnd Hentry).
  assert (Hlabel : label <> EmptyString).
  { rewrite Forall_forall in Hall. exact (proj1 (Hall _ Hentry)). }
  assert (Hanswer : exit_answer anns (index, true) typed = (label, true)).
  { unfold exit_answer. destruct (available anns) as [|first names] eqn:E.
    - destruct index; discriminate.
    - simpl fst. simpl snd. f_equal. now apply nth_error_nth. }
  assert (Hmem : dict_mem anns label = true) by (unfold dict_mem; now rewrite Hget).
  assert (Hexit : has_exit anns label = false)
    by (unfold has_exit; now rewrite Hget).
  exists (set_exit anns label (from_one frame)).
  unfold mark_exit. rewrite Hframe, Hanswer, (accepted_label _ Hlabel), Hmem, Hexit.
  simpl. split; [reflexivity|]. split; [|split].
  - rewrite exit_of_set_exit by exact Hmem. now rewrite String.eqb_refl.
  - apply enter_of_set_exit.
  - unfold set_exit. rewrite Hget. now apply available_after_exit.
Qed.


Lemma dict_get_fresh anns k : dict_mem anns k = false -> dict_get anns k = None.
Proof. unfold dict_mem. now destruct (dict_get anns k). Qed.





Lemma perform_all_reachable fps anns actions anns' :
  reachable fps anns -> perform_all fps anns actions = Some anns' ->
  reachable fps anns'.
Proof.
  revert anns. induction actions as [|a actions IH]; intros anns Hr; simpl.
  - now intros H; inversion H; subst.
  - destruct (perform fps anns a) as [[anns1 shown]|] eqn:E; [|discriminate].
    apply IH. eapply reachable_step; eassumption.
Qed.

(** Marks are kept for the whole session: whatever the operator does next,
    and however often, an enter or exit mark that is set is never changed
    and never removed. *)
Theorem session_keeps_marks fps anns actions anns' label v :
  perform_all fps anns actions = Some anns' ->
  (enter_of anns label = Some v -> enter_of anns' label = Some v)
  /\ (exit_of anns label = Some v -> exit_of anns' label = Some v).
Proof.
  revert anns. induction actions as [|a actions IH]; intros anns; simpl.
  - intros H; inversion H; subst. auto.
  - destruct (perform fps anns a) as [[anns1 shown]|] eqn:E; [|discriminate].
    intros Hrest. destruct (perform_keeps fps anns a anns1 shown label v E) as [He Hx].
    destruct (IH anns1 Hrest) as [He' Hx']. auto.
Qed.

(** What a session of the dialog hands over can always be extracted: its
    labels are distinct and not empty, every mark is a frame number from 1
    on, so that every seek of [clip_by_annotations] goes to an offset that is
    not negative; when validation accepts the store and the source opens,
    every interval gets its clip and the call returns success. *)
Theorem session_store_is_extracted {frame : Type} (env : Env frame)
    (self : MainWindow) fps actions anns s video_path video :
  perform_all fps [] actions = Some anns ->
  validate anns = inr s ->
  open_capture env video_path = Some video ->
  well_formed anns
  /\ Forall (fun x => 0 <= iv_enter x - 1) s
  /\ clip_by_annotations env self anns video_path
     = {| result := (true, success_message self);
          trace := [CapOpen video_path]
                     ++ flat_map (events_of env self video) s ++ [CapRelease];
          clips := map (clip_of env self video) s |}.
Proof.
  intros Hsession Hv Hopen.
  assert (Hr : reachable fps anns)
    by (eapply perform_all_reachable; [apply reachable_empty | eassumption]).
  assert (Hone := reachable_from_frame_one fps anns s Hr Hv).
  split; [now apply reachable_well_formed with (fps := fps)|]. split.
  - eapply Forall_impl; [|exact Hone]. simpl. intros x Hx. lia.
  - now apply clip_by_annotations_valid.
Qed.

Lemma mark_enter_first fps p frame_number label :
  position_frame p fps = Some frame_number -> label <> EmptyString ->
  mark_enter [] fps p (label, true)
  = Some ([(label, {| enter := Some (from_one frame_number); exit := None |})],
          Some (Information "Annotation"
                  ("Marked enter for " ++ label ++ " at frame "
                     ++ str_of_int (from_one frame_number) ++ "."))).
Proof.
  intros Hframe Hlabel. unfold mark_enter.
  rewrite Hframe. cbv beta iota zeta. rewrite (accepted_label _ Hlabel).
  unfold dict_mem, set_enter. cbn [dict_get dict_set andb negb no_marks].
  now rewrite !String.eqb_refl.
Qed.

Lemma mark_exit_only_open fps p frame_number label entered typed :
  position_frame p fps = Some frame_number -> label <> EmptyString ->
  mark_exit [(label, {| enter := Some entered; exit := None |})] fps p
    (0%nat, true) typed
  = Some ([(label, {| enter := Some entered;
                      exit := Some (from_one frame_number) |})],
          Some (Information "Annotation"
                  ("Marked exit for " ++ label ++ " at frame "
                     ++ str_of_int (from_one frame_number) ++ "."))).
Proof.
  intros Hframe Hlabel. unfold mark_exit.
  rewrite Hframe.
  replace (exit_answer [(label, {| enter := Some entered; exit := None |})]
             (0%nat, true) typed) with (label, true) by reflexivity.
  cbv beta iota zeta. rewrite (accepted_label _ Hlabel).
  unfold dict_mem, has_exit, set_exit. cbn [dict_get dict_set andb negb].
  rewrite !String.eqb_refl. cbn [exit enter andb negb].
  cbn [dict_get dict_set]. now rewrite !String.eqb_refl.
Qed.

(** A session with one intruder, from the empty dialog: the enter mark, then
    the exit mark picked in the drop-down, leave the interval of the two
    frames.  [clip_by_annotations] turns it down when the exit frame is the
    earlier one, which the dialog had accepted, and writes its clip
    otherwise. *)
Theorem single_intruder_session {frame : Type} (env : Env frame)
    (self : MainWindow) fps p1 frame1 p2 frame2 label typed video_path :
  position_frame p1 fps = Some frame1 ->
  position_frame p2 fps = Some frame2 ->
  label <> EmptyString ->
  perform_all fps []
    [MarkEnter p1 (label, true); MarkExit p2 (0%nat, true) typed]
  = Some [item_of (from_one frame1, from_one frame2, label)]
  /\ (from_one frame2 < from_one frame1 ->
      clip_by_annotations env self
        [item_of (from_one frame1, from_one frame2, label)] video_path
      = {| result := (false, inverted_message label);
           trace := []; clips := [] |})
  /\ (from_one frame1 <= from_one frame2 ->
      forall video,
        open_capture env video_path = Some video ->
        clip_by_annotations env self
          [item_of (from_one frame1, from_one frame2, label)] video_path
        = {| result := (true, success_message self);
             trace := [CapOpen video_path]
                        ++ events_of env self video
                             (from_one frame1, from_one frame2, label)
                        ++ [CapRelease];
             clips := [clip_of env self video
                         (from_one frame1, from_one frame2, label)] |}).
Proof.
  intros H1 H2 Hlabel. split; [|split].
  - cbn [perform_all fold_left perform].
    rewrite (mark_enter_first fps p1 frame1 label H1 Hlabel).
    now rewrite (mark_exit_only_open fps p2 frame2 label (from_one frame1) typed
                   H2 Hlabel).
  - intros Hlt.
    assert (E := collect_intervals_inverted []
                   (from_one frame1, from_one frame2, label) []
                   (Forall_nil _) (Forall_nil _) Hlt).
    unfold clip_by_annotations. simpl app in E. now rewrite E.
  - intros Hle video Hopen.
    assert (Hv : validate [item_of (from_one frame1, from_one frame2, label)]
                 = inr [(from_one frame1, from_one frame2, label)]).
    { unfold validate, item_of, iv_enter, iv_exit, iv_label. simpl.
      destruct (Z.ltb_spec (from_one frame2) (from_one frame1)); [lia | reflexivity]. }
    rewrite (clip_by_annotations_valid env self _ video_path _ video Hv).
    + simpl. now rewrite app_nil_r.
    + repeat constructor. unfold iv_enter; simpl. apply from_one_ge.
    + exact Hopen.
Qed.

(** ** Examples for the window and the dialog *)

Lemma remembered_folder_is_the_destination_witness :
  output_folder demo_window_exports = chosen_folder (folder_after demo_folder_events)
  /\ output_folder_checked demo_window_exports
     = box_checked (folder_after demo_folder_events)
  /\ out_path demo_env demo_window_exports "X"
     = "exports/session_Xintruder.mp4"%string.
Proof.
  split; [reflexivity|]. split; [reflexivity|].
  exact (remembered_folder_is_the_destination demo_env demo_window_exports
           demo_folder_events "X" eq_refl eq_refl).
Defined.

Lemma unchecking_forgets_the_folder_witness :
  0 <> Checked
  /\ chosen_folder (folder_after (demo_folder_events ++ BoxSet 0 :: map BoxSet [2]))
     = None.
Proof.
  assert (H : 0 <> Checked) by discriminate.
  split; [exact H|].
  exact (unchecking_forgets_the_folder demo_folder_events 0 [2] H).
Defined.

Lemma picked_exit_is_recorded_witness :
  well_formed store_open
  /\ position_frame 1200 (Float64.of_int 25) = Some 30
  /\ nth_error (available store_open) 1 = Some "C"%string
  /\ exists anns',
       mark_exit store_open (Float64.of_int 25) 1200 (1%nat, true)
         (EmptyString, false)
       = Some (anns',
               Some (Information "Annotation"
                       ("Marked exit for " ++ "C" ++ " at frame "
                          ++ str_of_int (from_one 30) ++ ".")))
       /\ exit_of anns' "C" = Some (from_one 30)
       /\ enter_of anns' "C" = enter_of store_open "C"
       /\ available anns'
          = filter (fun name => negb (String.eqb name "C")) (available store_open).
Proof.
  assert (Hwf : well_formed store_open).
  { split.
    - repeat constructor; simpl; intuition discriminate.
    - unfold store_open.
      repeat (apply Forall_cons;
              [split; [discriminate | split; intros v H; inversion H; lia]|]).
      apply Forall_nil. }
  split; [exact Hwf|]. split; [reflexivity|]. split; [reflexivity|].
  exact (picked_exit_is_recorded store_open (Float64.of_int 25) 1200 30 1 "C"
           (EmptyString, false) Hwf eq_refl eq_refl).
Defined.


Lemma session_keeps_marks_witness :
  perform_all (Float64.of_int 25) store_marked demo_session
  = Some [("A"%string, {| enter := Some 3; exit := Some 9 |});
          ("B"%string, {| enter := Some 30; exit := Some 50 |})]
  /\ (enter_of store_marked "A" = Some 3 ->
      enter_of [("A"%string, {| enter := Some 3; exit := Some 9 |});
                ("B"%string, {| enter := Some 30; exit := Some 50 |})] "A"
      = Some 3)
  /\ (exit_of store_marked "A" = Some 9 ->
      exit_of [("A"%string, {| enter := Some 3; exit := Some 9 |});
               ("B"%string, {| enter := Some 30; exit := Some 50 |})] "A"
      = Some 9).
Proof.
  assert (Hsession :
            perform_all (Float64.of_int 25) store_marked demo_session
            = Some [("A"%string, {| enter := Some 3; exit := Some 9 |});
                    ("B"%string, {| enter := Some 30; exit := Some 50 |})])
    by reflexivity.
  split; [exact Hsession|]. split.
  - exact (proj1 (session_keeps_marks (Float64.of_int 25) store_marked
                    demo_session _ "A" 3 Hsession)).
  - exact (proj2 (session_keeps_marks (Float64.of_int 25) store_marked
                    demo_session _ "A" 9 Hsession)).
Defined.

Lemma session_store_is_extracted_witness :
  perform_all (Float64.of_int 25) [] demo_session
  = Some [item_of (10, 20, "A"%string); item_of (30, 50, "B"%string)]
  /\ validate [item_of (10, 20, "A"%string); item_of (30, 50, "B"%string)]
     = inr [(10, 20, "A"%string); (30, 50, "B"%string)]
  /\ open_capture demo_env "session.avi" = Some demo_video
  /\ well_formed [item_of (10, 20, "A"%string); item_of (30, 50, "B"%string)]
  /\ Forall (fun x => 0 <= iv_enter x - 1)
       [(10, 20, "A"%string); (30, 50, "B"%string)]
  /\ clip_by_annotations demo_env demo_window
       [item_of (10, 20, "A"%string); item_of (30, 50, "B"%string)] "session.avi"
     = {| result := (true, success_message demo_window);
          trace := [CapOpen "session.avi"]
                     ++ flat_map (events_of demo_env demo_window demo_video)
                          [(10, 20, "A"%string); (30, 50, "B"%string)]
                     ++ [CapRelease];
          clips := map (clip_of demo_env demo_window demo_video)
                     [(10, 20, "A"%string); (30, 50, "B"%string)] |}.
Proof.
  assert (Hsession :
            perform_all (Float64.of_int 25) [] demo_session
            = Some [item_of (10, 20, "A"%string); item_of (30, 50, "B"%string)])
    by (vm_compute; reflexivity).
  assert (Hvalid :
            validate [item_of (10, 20, "A"%string); item_of (30, 50, "B"%string)]
            = inr [(10, 20, "A"%string); (30, 50, "B"%string)])
    by (vm_compute; reflexivity).
  assert (Hopen : open_capture demo_env "session.avi" = Some demo_video)
    by reflexivity.
  split; [exact Hsession|]. split; [exact Hvalid|]. split; [exact Hopen|].
  exact (session_store_is_extracted demo_env demo_window (Float64.of_int 25)
           demo_session
           [item_of (10, 20, "A"%string); item_of (30, 50, "B"%string)]
           [(10, 20, "A"%string); (30, 50, "B"%string)]
           "session.avi" demo_video Hsession Hvalid Hopen).
Defined.

Lemma single_intruder_session_witness :
  position_frame 2000 (Float64.of_int 25) = Some 50
  /\ position_frame 400 (Float64.of_int 25) = Some 10
  /\ "A"%string <> EmptyString
  /\ perform_all (Float64.of_int 25) []
       [MarkEnter 2000 ("A"%string, true);
        MarkExit 400 (0%nat, true) (EmptyString, false)]
     = Some [item_of (from_one 50, from_one 10, "A"%string)]
  /\ (from_one 10 < from_one 50 ->
      clip_by_annotations demo_env demo_window
        [item_of (from_one 50, from_one 10, "A"%string)] "session.avi"
      = {| result := (false, inverted_message "A");
           trace := []; clips := [] |}).
Proof.
  assert (Hlabel : "A"%string <> EmptyString) by discriminate.
  split; [reflexivity|]. split; [reflexivity|]. split; [exact Hlabel|].
  split.
  - exact (proj1 (single_intruder_session demo_env demo_window (Float64.of_int 25)
                    2000 50 400 10 "A" (EmptyString, false) "session.avi"
                    eq_refl eq_refl Hlabel)).
  - exact (proj1 (proj2 (single_intruder_session demo_env demo_window
                           (Float64.of_int 25) 2000 50 400 10 "A"
                           (EmptyString, false) "session.avi"
                           eq_refl eq_refl Hlabel))).
Defined.

(** ** The sequence converter *)

Section SeqToMp4Properties.

Context {frame : Type}.

Implicit Types (cap : VideoCapture frame) (out : VideoWriter frame).

Lemma percentages_step frame_count n total_frames :
  percentages frame_count (S n) total_frames
  = progress_percent (frame_count + 1) total_frames
      :: percentages (frame_count + 1) n total_frames.
Proof.
  unfold percentages. cbn [seq map]. f_equal.
  rewrite <- seq_shift, map_map. apply map_ext. intros i. f_equal. lia.
Qed.

(** The loop copies every frame from the read position on, and sends one
    percentage per frame when the container announces a frame count. *)
Lemma copy_frames_spec cap out frame_count total_frames emitted :
  0 <= cap_pos cap ->
  (0 < total_frames ->
   Forall (fun p => p <> None)
     (percentages frame_count
        (List.length (skipn (Z.to_nat (cap_pos cap)) (cap_frames cap)))
        total_frames)) ->
  exists cap' sent,
    copy_frames cap out frame_count total_frames emitted
    = Some (cap',
            fold_left writer_write
              (skipn (Z.to_nat (cap_pos cap)) (cap_frames cap)) out,
            frame_count
              + Z.of_nat (List.length (skipn (Z.to_nat (cap_pos cap)) (cap_frames cap))),
            emitted ++ sent)
    /\ (if 0 <? total_frames
        then map Some sent
             = percentages frame_count
                 (List.length (skipn (Z.to_nat (cap_pos cap)) (cap_frames cap)))
                 total_frames
        else sent = []).
Proof.
  funelim (copy_frames cap out frame_count total_frames emitted);
    intros Hpos Hall.
  - (* the read failed *)
    destruct (cap_read_none _ _ ended) as (-> & [Hneg|Hnth]); [lia|].
    apply nth_error_None in Hnth. rewrite skipn_all2 by exact Hnth.
    exists cap, []. cbn [fold_left List.length]. rewrite app_nil_r, Z.add_0_r.
    split; [reflexivity|]. now destruct (0 <? total_frames).
  - (* a frame was read, no frame count is announced *)
    destruct (cap_read_some _ _ _ read) as (_ & Hnth & Hfr & Hp).
    rewrite (skipn_nth_error _ _ _ Hnth). cbn [List.length].
    assert (Hle : total_frames <= 0) by now apply Z.ltb_ge.
    rewrite Hfr, Hp in H.
    replace (Z.to_nat (cap_pos cap + 1)) with (S (Z.to_nat (cap_pos cap))) in H by lia.
    destruct (H ltac:(lia) ltac:(lia)) as (cap'' & sent & Hrun & Hsent).
    exists cap'', sent. split.
    + rewrite Hrun. cbn [fold_left]. do 3 f_equal. lia.
    + now rewrite Heq in *.
  - (* a frame was read and its percentage sent *)
    destruct (cap_read_some _ _ _ read) as (_ & Hnth & Hfr & Hp).
    rewrite (skipn_nth_error _ _ _ Hnth) in Hall |- *. cbn [List.length] in Hall |- *.
    rewrite percentages_step in Hall |- *.
    assert (Hlt : 0 < total_frames) by now apply Z.ltb_lt.
    specialize (Hall Hlt). inversion Hall as [|? ? _ Hrest]; subst.
    rewrite Hfr, Hp in H.
    replace (Z.to_nat (cap_pos cap + 1)) with (S (Z.to_nat (cap_pos cap))) in H by lia.
    destruct (H ltac:(lia) (fun _ => Hrest)) as (cap'' & sent & Hrun & Hsent).
    exists cap'', (percent :: sent). split.
    + rewrite Hrun. cbn [fold_left]. rewrite <- app_assoc. cbn [app].
      do 3 f_equal. lia.
    + rewrite Heq in Hsent |- *. cbn [map]. now rewrite computed, Hsent.
  - (* a frame was read, the percentage raised *)
    destruct (cap_read_some _ _ _ read) as (_ & Hnth & _).
    rewrite (skipn_nth_error _ _ _ Hnth) in Hall. cbn [List.length] in Hall.
    rewrite percentages_step in Hall.
    assert (Hlt : 0 < total_frames) by now apply Z.ltb_lt.
    specialize (Hall Hlt). inversion Hall as [|? ? Hhead _]; subst.
    congruence.
Qed.

(** [seq_to_mp4] copies every frame of a source that opens, in order, and
    sends one percentage per frame when the container announces a frame
    count, none otherwise.  It returns success whether or not the writer
    opened: when it did not, the output holds no frame. *)
Theorem seq_to_mp4_copies_every_frame (env : Env frame)
    (input_file output_file : string) (reported_frames : Z) (video : Video frame) :
  open_capture env input_file = Some video ->
  (0 < reported_frames ->
   Forall (fun p => p <> None)
     (percentages 0 (List.length (video_frames video)) reported_frames)) ->
  exists sent,
    seq_to_mp4 env input_file output_file reported_frames
    = Some {| reply := (true, ("Converted .seq to .mp4: " ++ output_file)%string);
              written :=
                Some {| writer_path := output_file;
                        writer_fps := default_fps (video_fps video);
                        writer_size := (video_width video, video_height video);
                        writer_opened := writer_opens env output_file;
                        writer_frames :=
                          if writer_opens env output_file
                          then video_frames video else [] |};
              progress := sent |}
    /\ (if 0 <? reported_frames
        then map Some sent
             = percentages 0 (List.length (video_frames video)) reported_frames
        else sent = []).
Proof.
  intros Hopen Hall. unfold seq_to_mp4. rewrite Hopen. cbv zeta.
  destruct (copy_frames_spec
              {| cap_frames := video_frames video; cap_pos := 0 |}
              (new_writer env output_file (default_fps (video_fps video))
                 (video_width video, video_height video))
              0 reported_frames [] ltac:(simpl; lia) Hall)
    as (cap' & sent & Hrun & Hsent).
  exists sent. rewrite Hrun. cbn [cap_frames cap_pos Z.to_nat skipn app] in *.
  split; [|exact Hsent].
  rewrite fold_writer_write. unfold new_writer. cbn.
  now destruct (writer_opens env output_file).
Qed.

(** A source that does not open is reported, and nothing is written. *)
Lemma seq_to_mp4_unopenable (env : Env frame) input_file output_file reported_frames :
  open_capture env input_file = None ->
  seq_to_mp4 env input_file output_file reported_frames
  = Some {| reply := (false, ("Could not open " ++ input_file ++ " as .seq.")%string);
            written := None; progress := [] |}.
Proof. intros H. unfold seq_to_mp4. now rewrite H. Qed.

End SeqToMp4Properties.

Lemma seq_to_mp4_copies_every_frame_witness :
  open_capture demo_seq_env "session.seq" = Some demo_video
  /\ (0 < 200 ->
      Forall (fun p => p <> None)
        (percentages 0 (List.length (video_frames demo_video)) 200))
  /\ exists sent,
       seq_to_mp4 demo_seq_env "session.seq" "elsewhere/session.mp4" 200
       = Some {| reply := (true, "Converted .seq to .mp4: elsewhere/session.mp4"%string);
                 written :=
                   Some {| writer_path := "elsewhere/session.mp4";
                           writer_fps := default_fps (video_fps demo_video);
                           writer_size := (640, 480);
                           writer_opened := false;
                           writer_frames := [] |};
                 progress := sent |}
       /\ (if 0 <? 200
           then map Some sent
                = percentages 0 (List.length (video_frames demo_video)) 200
           else sent = []).
Proof.
  assert (Hall : 0 < 200 ->
                 Forall (fun p => p <> None)
                   (percentages 0 (List.length (video_frames demo_video)) 200)).
  { intros _. vm_compute.
    repeat (apply Forall_cons; [discriminate|]). apply Forall_nil. }
  split; [reflexivity|]. split; [exact Hall|].
  exact (seq_to_mp4_copies_every_frame demo_seq_env "session.seq"
           "elsewhere/session.mp4" 200 demo_video eq_refl Hall).
Defined.

(** ** The batch *)

Section BatchProperties.

Import Batch.

Context {frame : Type}.
Variable world : World (frame := frame).

Implicit Types (w : Window) (log : list (effect (frame := frame))) (f : Path).



(** One activation and what it leads to. *)
Lemma process_next_file_unfold w log :
  process_next_file world w log
  = match process_next_file_body world w log with
    | Return w' log' => Idle w' log'
    | Again w' log' => process_next_file world w' log'
    | Started w' log' conversion_type =>
        match on_conversion_finished w' log'
                (run conversion_type (methods world (current_file_index w'))) with
        | Stop w'' log'' => Idle w'' log''
        | Next w'' log'' => process_next_file world w'' log''
        end
    | Raise w' log' => Crashed w' log'
    end.
Proof.
  funelim (process_next_file world w log);
    try match goal with
        | E : process_next_file_body _ _ _ = _ |- _ => rewrite E
        end;
    try match goal with
        | E : on_conversion_finished _ _ _ = _ |- _ => rewrite E
        end;
    reflexivity.
Qed.

Lemma same_settings_refl w : same_settings w w.
Proof. repeat split. Qed.

Lemma effects_from_app (per_file : nat -> Path -> list (effect (frame := frame)))
    index files files' :
  effects_from per_file index (files ++ files')
  = effects_from per_file index files
      ++ effects_from per_file (index + List.length files) files'.
Proof.
  revert index; induction files as [|f files IH]; intros index; simpl.
  - now rewrite Nat.add_0_r.
  - rewrite IH, <- app_assoc. do 3 f_equal. lia.
Qed.

Lemma files_between_nil w first : files_between w first first = [].
Proof. unfold files_between. now rewrite Nat.sub_diag. Qed.

Lemma files_between_first w first last f :
  (first < last)%nat -> nth_error (file_list w) first = Some f ->
  files_between w first last = f :: files_between w (S first) last.
Proof.
  intros Hlt Hnth. unfold files_between.
  rewrite (skipn_nth_error _ _ _ Hnth).
  replace (last - first)%nat with (S (last - S first)) by lia. reflexivity.
Qed.

Lemma files_between_all w first :
  files_between w first (List.length (file_list w)) = skipn first (file_list w).
Proof.
  unfold files_between. apply firstn_all2. rewrite length_skipn. lia.
Qed.

(** *** Clipping batches *)








(** Past the last file the batch announces its end. *)
Lemma batch_end w log :
  (List.length (file_list w) <= current_file_index w)%nat ->
  process_next_file world w log
  = Idle (enable_buttons w true)
      (log ++ [information "Success" "All conversions completed."]).
Proof.
  intros Hlen. rewrite process_next_file_unfold. unfold process_next_file_body.
  now rewrite (proj2 (nth_error_None _ _) Hlen).
Qed.



(** An exception of [video_to_avi] is not caught: it leaves
    [process_next_file] after the call, no box is shown and the buttons are
    left as they were. *)
Lemma normaliser_exception_is_not_shown w log f :
  clip_checkbox w = true ->
  output_combo w = ".mp4"%string ->
  nth_error (file_list w) (current_file_index w) = Some f ->
  extension world f = ".seq"%string ->
  normalised world (current_file_index w) f = None ->
  exists w',
    process_next_file world w log
    = Crashed w' (log ++ [normalising f (temp_avi world f)])
    /\ convert_button w' = convert_button w
    /\ select_file_button w' = select_file_button w.
Proof.
  intros Hon Hmp4 Hnth Hext Hraised.
  rewrite process_next_file_unfold.
  unfold process_next_file_body. rewrite Hnth. cbv zeta.
  cbn [clip_checkbox assign_file current_file_index output_combo].
  rewrite Hon, Hmp4, Hext.
  change (ext_in ".seq" [".seq"; ".mp4"]%string) with true.
  change (".seq" =? ".seq")%string with true.
  change (".mp4" =? ".mp4")%string with true.
  cbn [negb orb].
  unfold normalised in Hraised. rewrite Hraised.
  eexists. split; [reflexivity|]. cbn. auto.
Qed.


(** *** Conversion batches *)

(** With the clip box unchecked a file gets its thread; the slot goes on to
    the next file when the thread reports success and stops the batch when
    it does not. *)
Lemma thread_step w0 w log f :
  same_settings w0 w ->
  clip_checkbox w0 = false ->
  nth_error (file_list w0) (current_file_index w) = Some f ->
  process_next_file world w log
  = if fst (emitted_by world w0 (current_file_index w) f)
    then process_next_file world
           (advance
              (enable_buttons
                 (assign_file w f (extension world f)
                    (output_for world w0 f (output_combo w0)))
                 false))
           (log ++ thread_effects world w0 (current_file_index w) f)
    else Idle
           (enable_buttons
              (enable_buttons
                 (assign_file w f (extension world f)
                    (output_for world w0 f (output_combo w0)))
                 false)
              true)
           (log ++ thread_effects world w0 (current_file_index w) f
                ++ [critical "Error"
                      (snd (emitted_by world w0 (current_file_index w) f))]).
Proof.
  intros (Hfiles & Hfolder & Hbox & Hclip & Hcombo) Hoff Hnth.
  rewrite process_next_file_unfold.
  unfold process_next_file_body. rewrite Hfiles, Hnth. cbv zeta.
  replace (output_for world w f (output_combo w))
    with (output_for world w0 f (output_combo w0))
    by (unfold output_for; now rewrite Hfolder, Hbox, Hcombo).
  cbn [clip_checkbox assign_file]. rewrite Hclip, Hoff, Hcombo.
  unfold on_conversion_finished, emitted_by, thread_effects, conversion_type_of.
  cbn [current_file_index enable_buttons assign_file].
  destruct (run _ _) as [[|] message]; cbn [fst snd negb];
    [reflexivity | now rewrite <- app_assoc].
Qed.

Lemma thread_run w0 :
  clip_checkbox w0 = false ->
  forall n w log last,
    same_settings w0 w ->
    last = (current_file_index w + n)%nat ->
    (last <= List.length (file_list w0))%nat ->
    (forall index f,
        (current_file_index w <= index < last)%nat ->
        nth_error (file_list w0) index = Some f ->
        fst (emitted_by world w0 index f) = true) ->
    exists w',
      process_next_file world w log
      = process_next_file world w'
          (log ++ effects_from (thread_effects world w0) (current_file_index w)
                    (files_between w0 (current_file_index w) last))
      /\ same_settings w0 w'
      /\ current_file_index w' = last.
Proof.
  intros Hoff. induction n as [|n IH]; intros w log last Hsame -> Hlen Hall.
  - exists w. rewrite Nat.add_0_r, files_between_nil. cbn [effects_from].
    rewrite app_nil_r. auto.
  - destruct (nth_error (file_list w0) (current_file_index w)) as [f|] eqn:Hnth;
      [|apply nth_error_None in Hnth; lia].
    rewrite (thread_step w0 w log f Hsame Hoff Hnth).
    rewrite (Hall (current_file_index w) f ltac:(lia) Hnth).
    destruct Hsame as (Hfiles & Hfolder & Hbox & Hclip & Hcombo).
    destruct (IH (advance
                    (enable_buttons
                       (assign_file w f (extension world f)
                          (output_for world w0 f (output_combo w0)))
                       false))
                (log ++ thread_effects world w0 (current_file_index w) f)
                (current_file_index w + S n)%nat)
      as (w' & Hrun & Hsame' & Hindex').
    + repeat split; assumption.
    + cbn. lia.
    + exact Hlen.
    + intros index g Hrange. apply Hall. cbn in Hrange. lia.
    + exists w'. rewrite Hrun.
      rewrite (files_between_first w0 (current_file_index w)
                 (current_file_index w + S n) f ltac:(lia) Hnth).
      cbn [effects_from current_file_index advance].
      rewrite <- app_assoc. auto.
Qed.

(** A conversion batch whose threads all report success converts every
    file, in the order of the list, each by the conversion that its own
    extension and the one output format of the window determine, and ends
    with the success box and the buttons enabled. *)
Theorem conversion_batch_reaches_the_end w log :
  clip_checkbox w = false ->
  (forall index f,
      (current_file_index w <= index)%nat ->
      nth_error (file_list w) index = Some f ->
      fst (emitted_by world w index f) = true) ->
  exists w',
    process_next_file world w log
    = Idle w'
        (log ++ effects_from (thread_effects world w) (current_file_index w)
                  (skipn (current_file_index w) (file_list w))
             ++ [information "Success" "All conversions completed."])
    /\ current_file_index w'
       = Nat.max (current_file_index w) (List.length (file_list w))
    /\ convert_button w' = true
    /\ select_file_button w' = true.
Proof.
  intros Hoff Hall.
  destruct (Nat.le_gt_cases (List.length (file_list w)) (current_file_index w))
    as [Hpast|Hin].
  - exists (enable_buttons w true).
    rewrite batch_end by exact Hpast.
    rewrite skipn_all2 by exact Hpast. cbn [effects_from app].
    repeat split. cbn. lia.
  - destruct (thread_run w Hoff
                (List.length (file_list w) - current_file_index w) w log
                (List.length (file_list w)) (same_settings_refl w)
                ltac:(lia) ltac:(lia))
      as (w1 & Hrun & (Hfiles & _) & Hindex).
    { intros index f Hrange. apply Hall. lia. }
    exists (enable_buttons w1 true).
    rewrite Hrun, batch_end by (rewrite Hfiles, Hindex; lia).
    rewrite files_between_all, <- app_assoc.
    split; [reflexivity|].
    cbn. rewrite Hindex. repeat split. lia.
Qed.

(** A conversion batch stops at the first file whose thread reports a
    failure, be it a returned [False] or an exception: the message of the
    thread is shown, the buttons are enabled again, the index stays on that
    file, and no thread is started for the files after it. *)
Theorem conversion_batch_stops_at_first_failure w log stop f :
  clip_checkbox w = false ->
  (current_file_index w <= stop)%nat ->
  (forall index g,
      (current_file_index w <= index < stop)%nat ->
      nth_error (file_list w) index = Some g ->
      fst (emitted_by world w index g) = true) ->
  nth_error (file_list w) stop = Some f ->
  fst (emitted_by world w stop f) = false ->
  exists w',
    process_next_file world w log
    = Idle w'
        (log ++ effects_from (thread_effects world w) (current_file_index w)
                  (files_between w (current_file_index w) stop)
             ++ thread_effects world w stop f
             ++ [critical "Error" (snd (emitted_by world w stop f))])
    /\ current_file_index w' = stop
    /\ convert_button w' = true
    /\ select_file_button w' = true.
Proof.
  intros Hoff Hle Hall Hnth Hfailed.
  assert (Hlen : (stop < List.length (file_list w))%nat)
    by (apply nth_error_Some; congruence).
  destruct (thread_run w Hoff (stop - current_file_index w) w log stop
              (same_settings_refl w) ltac:(lia) ltac:(lia) Hall)
    as (w1 & Hrun & Hsame & Hindex).
  rewrite <- Hindex in Hnth.
  eexists. rewrite Hrun, (thread_step w w1 _ f Hsame Hoff Hnth).
  rewrite Hindex, Hfailed, <- app_assoc.
  split; [reflexivity|]. cbn. auto.
Qed.

(** [start_conversion] with the box for several files checked and a
    selection made converts the selected files from the first one on,
    whatever list and index an earlier batch has left in the window: a
    batch that stopped is started again, not resumed. *)
Theorem start_conversion_takes_the_selection w log files :
  multiple_files_checkbox w = true ->
  input_files w = Some files ->
  files <> [] ->
  clip_checkbox w = false ->
  (forall index f,
      nth_error files index = Some f ->
      fst (emitted_by world w index f) = true) ->
  exists w',
    start_conversion world w log
    = Idle w'
        (log ++ effects_from (thread_effects world w) 0 files
             ++ [information "Success" "All conversions completed."])
    /\ file_list w' = files
    /\ current_file_index w' = List.length files
    /\ convert_button w' = true
    /\ select_file_button w' = true.
Proof.
  intros Hbox Hfiles Hsome Hoff Hall.
  unfold start_conversion. rewrite Hbox, Hfiles.
  destruct files as [|f files]; [congruence|].
  destruct (thread_run (assign_list w (f :: files)) Hoff
              (List.length (f :: files)) (assign_list w (f :: files)) log
              (List.length (f :: files))
              (same_settings_refl _) eq_refl (Nat.le_refl _))
    as (w1 & Hrun & (Hlist & _) & Hindex).
  { intros index g _ Hnth. exact (Hall index g Hnth). }
  exists (enable_buttons w1 true).
  rewrite Hrun, batch_end by (rewrite Hlist, Hindex; apply Nat.le_refl).
  cbn [current_file_index file_list assign_list] in *.
  rewrite files_between_all, <- app_assoc.
  split; [reflexivity|]. cbn. auto.
Qed.

(** The clips of a file are written beside the output file that
    [process_next_file] has computed for it: the test on the output folder
    in [clip_by_annotations] (lines 767-770) always agrees with the test
    that chose the directory of the output file (lines 624-627). *)
Theorem clips_go_beside_the_output_file w f output_ext intruder :
  out_path (env world) (self_of world w f (output_for world w f output_ext))
    intruder
  = path_join (env world) (parent (output_for world w f output_ext))
      (output_name (self_of world w f (output_for world w f output_ext))
         intruder).
Proof.
  unfold out_path, self_of, output_for. cbn.
  destruct (output_folder w) as [folder|]; [|reflexivity].
  now destruct (negb (folder =? EmptyString)%string && output_folder_checkbox w).
Qed.

(** *** What a batch removes *)




End BatchProperties.

(** ** Examples for the batch *)



Lemma conversion_batch_reaches_the_end_witness :
  Batch.clip_checkbox (demo_batch false ".png" [in_videos "x.jpg"]) = false
  /\ exists w',
       Batch.process_next_file demo_world
         (demo_batch false ".png" [in_videos "x.jpg"]) []
       = Batch.Idle w'
           [Batch.converting (in_videos "x.jpg") (in_videos "x.png")
              "image_to_image";
            Batch.information "Success" "All conversions completed."]
       /\ Batch.current_file_index w' = 1%nat
       /\ Batch.convert_button w' = true
       /\ Batch.select_file_button w' = true.
Proof.
  assert (Hall : forall index f,
             (0 <= index)%nat ->
             nth_error [in_videos "x.jpg"] index = Some f ->
             fst (Batch.emitted_by demo_world
                    (demo_batch false ".png" [in_videos "x.jpg"]) index f)
             = true).
  { intros [|index] f _ Hnth; cbn in Hnth; inversion Hnth; subst.
    - reflexivity.
    - destruct index; discriminate. }
  split; [reflexivity|].
  exact (conversion_batch_reaches_the_end demo_world
           (demo_batch false ".png" [in_videos "x.jpg"]) [] eq_refl Hall).
Defined.

Lemma conversion_batch_stops_at_first_failure_witness :
  Batch.clip_checkbox
    (demo_batch false ".png"
       [in_videos "x.jpg"; in_videos "y.bmp"; in_videos "z.tiff"]) = false
  /\ fst (Batch.emitted_by demo_world
            (demo_batch false ".png"
               [in_videos "x.jpg"; in_videos "y.bmp"; in_videos "z.tiff"])
            1 (in_videos "y.bmp")) = false
  /\ exists w',
       Batch.process_next_file demo_world
         (demo_batch false ".png"
            [in_videos "x.jpg"; in_videos "y.bmp"; in_videos "z.tiff"]) []
       = Batch.Idle w'
           [Batch.converting (in_videos "x.jpg") (in_videos "x.png")
              "image_to_image";
            Batch.converting (in_videos "y.bmp") (in_videos "y.png")
              "image_to_image";
            Batch.critical "Error"
              "Image conversion failed: cannot identify image file"]
       /\ Batch.current_file_index w' = 1%nat
       /\ Batch.convert_button w' = true
       /\ Batch.select_file_button w' = true.
Proof.
  assert (Hall : forall index g,
             (0 <= index < 1)%nat ->
             nth_error [in_videos "x.jpg"; in_videos "y.bmp"; in_videos "z.tiff"]
               index = Some g ->
             fst (Batch.emitted_by demo_world
                    (demo_batch false ".png"
                       [in_videos "x.jpg"; in_videos "y.bmp"; in_videos "z.tiff"])
                    index g) = true).
  { intros [|index] g Hrange Hnth; cbn in Hnth; inversion Hnth; subst.
    - reflexivity.
    - lia. }
  split; [reflexivity|]. split; [reflexivity|].
  exact (conversion_batch_stops_at_first_failure demo_world
           (demo_batch false ".png"
              [in_videos "x.jpg"; in_videos "y.bmp"; in_videos "z.tiff"]) []
           1 (in_videos "y.bmp") eq_refl (Nat.le_0_l 1) Hall eq_refl eq_refl).
Defined.

Lemma start_conversion_takes_the_selection_witness :
  Batch.multiple_files_checkbox (demo_batch false ".png" [in_videos "x.jpg"]) = true
  /\ Batch.input_files (demo_batch false ".png" [in_videos "x.jpg"])
     = Some [in_videos "x.jpg"]
  /\ [in_videos "x.jpg"] <> []
  /\ Batch.clip_checkbox (demo_batch false ".png" [in_videos "x.jpg"]) = false
  /\ exists w',
       Batch.start_conversion demo_world
         (demo_batch false ".png" [in_videos "x.jpg"]) []
       = Batch.Idle w'
           [Batch.converting (in_videos "x.jpg") (in_videos "x.png")
              "image_to_image";
            Batch.information "Success" "All conversions completed."]
       /\ Batch.file_list w' = [in_videos "x.jpg"]
       /\ Batch.current_file_index w' = 1%nat
       /\ Batch.convert_button w' = true
       /\ Batch.select_file_button w' = true.
Proof.
  assert (Hall : forall index f,
             nth_error [in_videos "x.jpg"] index = Some f ->
             fst (Batch.emitted_by demo_world
                    (demo_batch false ".png" [in_videos "x.jpg"]) index f)
             = true).
  { intros [|index] f Hnth; cbn in Hnth; inversion Hnth; subst.
    - reflexivity.
    - destruct index; discriminate. }
  assert (Hsome : [in_videos "x.jpg"] <> []) by discriminate.
  split; [reflexivity|]. split; [reflexivity|]. split; [exact Hsome|].
  split; [reflexivity|].
  exact (start_conversion_takes_the_selection demo_world
           (demo_batch false ".png" [in_videos "x.jpg"]) [] [in_videos "x.jpg"]
           eq_refl eq_refl Hsome eq_refl Hall).
Defined.

(** The temporary AVI of [x.seq] is [x_temp.avi] beside it.  When a file of
    that name is itself selected, the batch has ffmpeg write over it and
    then removes it, before its turn comes. *)
Lemma temporary_can_be_a_selected_file :
  In (in_videos "x_temp.avi") [in_videos "x.seq"; in_videos "x_temp.avi"]
  /\ Batch.temp_avi demo_world (in_videos "x.seq") = in_videos "x_temp.avi"
  /\ In (in_videos "x_temp.avi")
       (Batch.removals
          (Batch.log_of
             (Batch.process_next_file demo_world
                (demo_batch true ".mp4"
                   [in_videos "x.seq"; in_videos "x_temp.avi"]) []))).
Proof.
  split; [right; left; reflexivity|]. split; [reflexivity|].
  vm_compute. left. reflexivity.
Qed.
